(** * FabEdge: connector controller, packet-filter rule builder, agent arguments

    A shallow embedding of
    - [pkg/operator/controllers/connector/controller.go] (module [connector]),
    - the iptables helper of package [iptables] (module [iptables]),
    - the agent argument map exercised by
      [pkg/operator/types/agent_argument_map_test.go] (module [types]),
    followed by the properties the specification states about them.

    Go strings are [string] (sequences of bytes), slices are lists, Go maps
    are [gmap]s, the string set of [github.com/jjeffery/stringset] is a
    [gset string]. A Go [int] used as an index is a [Z], with [-1] as the
    "not found" value the code uses. A run-time panic is [None] in the
    [option] monad. *)

From Stdlib Require Import String Ascii List ZArith Lia.
From stdpp Require Import base option gmap strings list sorting fin_maps fin_sets.

Local Open Scope Z_scope.

(** ** Go built-ins shared by the packages *)

Module golang.

(** The line feed, written ["\n"] in Go. *)
Definition LF : string := String "010"%char EmptyString.

(** [strings.Join(elems, sep)]. *)
Fixpoint Join (elems : list string) (sep : string) : string :=
  match elems with
  | [] => ""
  | [e] => e
  | e :: rest => e +:+ sep +:+ Join rest sep
  end.

(** [s[i]] for a slice [s] and an [int] [i]; [None] is the index-out-of-range
    panic. *)
Definition index {A} (s : list A) (i : Z) : option A :=
  if i <? 0 then None else s !! Z.to_nat i.

(** [s[i] = x] for a slice [s]; [None] is the index-out-of-range panic. *)
Definition set_index {A} (s : list A) (i : Z) (x : A) : option (list A) :=
  if (0 <=? i) && (i <? Z.of_nat (length s)) then Some (<[Z.to_nat i := x]> s)
  else None.

(** [s] occurs in [t]. *)
Definition Substring (s t : string) : Prop := ∃ pre post, t = pre +:+ s +:+ post.

(** [len(s)] as a Go [int]. *)
Definition len {A} (s : list A) : Z := Z.of_nat (length s).

End golang.

(** ** Package [iptables] *)

Module iptables.
Import golang.

Definition TableFilter : string := "filter".
Definition TableNat : string := "nat".
Definition ChainInput : string := "INPUT".
Definition ChainForward : string := "FORWARD".

Definition ChainPostRouting : string := "POSTROUTING".
Definition ChainMasquerade : string := "MASQUERADE".
Definition ChainFabEdgeInput : string := "FABEDGE-INPUT".
Definition ChainFabEdgeForward : string := "FABEDGE-FORWARD".
Definition ChainFabEdgePostRouting : string := "FABEDGE-POSTROUTING".
Definition ChainFabEdgeNatOutgoing : string := "FABEDGE-NAT-OUTGOING".

Definition IPTablesRestoreCommand : string := "iptables-restore".
Definition IP6TablesRestoreCommand : string := "ip6tables-restore".

Definition ProtocolIPv4 : string := "ipv4".
Definition ProtocolIPv6 : string := "ipv6".

(** [type Protocol string] *)
Definition Protocol := string.

(** One rule of a table: the chain it is appended to and its argument
    vector. The struct is declared outside the excerpt; its fields are the
    ones the helper reads and writes. *)
Record IPTablesRule := mkRule {
  chain : string;
  rule : list string;
}.

(** One table: its name, its registered chains and its rules. *)
Record IPTablesRuleSet := mkRuleSet {
  table : string;
  chains : list string;
  rules : list IPTablesRule;
}.

Record IPTablesHelper := mkHelper {
  protocol : Protocol;
  restoreCommand : string;
  ruleSets : list IPTablesRuleSet;
}.

Definition with_ruleSets (h : IPTablesHelper) (rs : list IPTablesRuleSet) : IPTablesHelper :=
  {| protocol := protocol h; restoreCommand := restoreCommand h; ruleSets := rs |}.

Definition doCreateIPTablesHelper (proto : Protocol) : IPTablesHelper :=
  let command :=
    if String.eqb proto ProtocolIPv4 then IPTablesRestoreCommand
    else if String.eqb proto ProtocolIPv6 then IP6TablesRestoreCommand
    else "" in
  {| protocol := proto; restoreCommand := command; ruleSets := [] |}.

Definition NewIPTablesHelper : IPTablesHelper := doCreateIPTablesHelper ProtocolIPv4.
Definition NewIP6TablesHelper : IPTablesHelper := doCreateIPTablesHelper ProtocolIPv6.

Definition isInternalChain (table chain : string) : bool :=
  if String.eqb table "filter" &&
     (String.eqb chain "INPUT" || String.eqb chain "OUTPUT" || String.eqb chain "FORWARD")
  then true
  else if String.eqb table "nat" &&
     (String.eqb chain "PREROUTING" || String.eqb chain "POSTROUTING" || String.eqb chain "OUTPUT")
  then true
  else if String.eqb table "mangle" &&
     (String.eqb chain "PREROUTING" || String.eqb chain "OUTPUT" || String.eqb chain "FORWARD"
      || String.eqb chain "INPUT" || String.eqb chain "POSTROUTING")
  then true
  else if String.eqb table "raw" &&
     (String.eqb chain "PREROUTING" || String.eqb chain "OUTPUT")
  then true
  else false.

(** The loop over [ruleSet.chains] of [GenerateInputFromRuleSet]. *)
Definition appendChains (tbl : string) (ret : string) (cs : list string) : string :=
  fold_left (fun ret chain =>
    let policy := if isInternalChain tbl chain then "ACCEPT" else "-" in
    ret +:+ Join [":"; chain; " " +:+ policy +:+ " [0:0]" +:+ LF] "") cs ret.

(** The loop over [ruleSet.rules] of [GenerateInputFromRuleSet]. *)
Definition appendRules (ret : string) (rs : list IPTablesRule) : string :=
  fold_left (fun ret ruleEntry =>
    let line := Join ("-A" :: chain ruleEntry :: rule ruleEntry) " " in
    (ret +:+ line) +:+ LF) rs ret.

Definition GenerateInputFromRuleSet (h : IPTablesHelper) : string :=
  fold_left (fun ret ruleSet =>
    let ret := ret +:+ ("*" +:+ table ruleSet +:+ LF) in
    let ret := appendChains (table ruleSet) ret (chains ruleSet) in
    let ret := appendRules ret (rules ruleSet) in
    ret +:+ ("COMMIT" +:+ LF)) (ruleSets h) "".

(** [findTable]: the index of the first rule set of that table, or [-1]. *)
Fixpoint findTable_from (i : Z) (rs : list IPTablesRuleSet) (tbl : string) : Z :=
  match rs with
  | [] => -1
  | ruleSet :: rest =>
      if String.eqb (table ruleSet) tbl then i else findTable_from (i + 1) rest tbl
  end.

Definition findTable (h : IPTablesHelper) (tbl : string) : Z :=
  findTable_from 0 (ruleSets h) tbl.

Fixpoint findChain_from (i : Z) (cs : list string) (chain : string) : Z :=
  match cs with
  | [] => -1
  | elem :: rest => if String.eqb chain elem then i else findChain_from (i + 1) rest chain
  end.

(** [findChain] reads [h.ruleSets[tableIndex]] and panics when the index is
    out of range. *)
Definition findChain (h : IPTablesHelper) (tableIndex : Z) (chain : string) : option Z :=
  ruleSet ← index (ruleSets h) tableIndex;
  Some (findChain_from 0 (chains ruleSet) chain).

Definition CreateChain (h : IPTablesHelper) (tbl chain : string) : option IPTablesHelper :=
  let tableIndex := findTable h tbl in
  let '(h, tableIndex) :=
    if tableIndex =? -1 then
      let h := with_ruleSets h (ruleSets h ++ [mkRuleSet tbl [] []]) in
      (h, len (ruleSets h) - 1)
    else (h, tableIndex) in
  chainIndex ← findChain h tableIndex chain;
  if chainIndex =? -1 then
    ruleSet ← index (ruleSets h) tableIndex;
    rs ← set_index (ruleSets h) tableIndex
            (mkRuleSet (table ruleSet) (chains ruleSet ++ [chain]) (rules ruleSet));
    Some (with_ruleSets h rs)
  else Some h.

(** [rulesEqual]: the element-wise loop, after the length test. *)
Fixpoint rulesEqual_loop (one other : list string) : bool :=
  match one, other with
  | [], _ => true
  | elem :: one', o :: other' => if negb (String.eqb elem o) then false else rulesEqual_loop one' other'
  | _ :: _, [] => false
  end.

Definition rulesEqual (one other : list string) : bool :=
  if negb (len one =? len other) then false else rulesEqual_loop one other.

Definition AppendUniqueRule (h : IPTablesHelper) (tbl chain : string) (rule : list string)
  : option IPTablesHelper :=
  let tableIndex := findTable h tbl in
  '(h, tableIndex) ←
    (if tableIndex =? -1 then
       h ← CreateChain h tbl chain; Some (h, findTable h tbl)
     else Some (h, tableIndex));
  chainIndex ← findChain h tableIndex chain;
  h ← (if chainIndex =? -1 then
         h ← CreateChain h tbl chain; _ ← findChain h tableIndex chain; Some h
       else Some h);
  ruleSet ← index (ruleSets h) tableIndex;
  if existsb (fun elem => String.eqb (iptables.chain elem) chain && rulesEqual (iptables.rule elem) rule)
       (rules ruleSet)
  then Some h
  else
    rs ← set_index (ruleSets h) tableIndex
            (mkRuleSet (table ruleSet) (chains ruleSet) (rules ruleSet ++ [mkRule chain rule]));
    Some (with_ruleSets h rs).

Definition ClearAllRules (h : IPTablesHelper) : IPTablesHelper := with_ruleSets h [].

(** *** Running the restore tool

    [os/exec] is the host: a command is a path, its arguments and its standard
    input; running it gives the two output buffers and the error of
    [cmd.Run()], [None] for a zero exit status. *)
Record Cmd := mkCmd {
  Path : string;
  Args : list string;
  Stdin : string;
}.

Record RunResult := mkRunResult {
  Stdout : string;
  Stderr : string;
  RunErr : option string;
}.

Definition Host := Cmd → RunResult.

(** The result pairs the commands that were run with the Go return values. *)
Definition runRestoreCommand (host : Host) (h : IPTablesHelper) (args : list string)
    (stdin : string) : list Cmd * (string * string * option string) :=
  let args := args ++ ["--wait"] in
  let cmd := mkCmd (restoreCommand h) args stdin in
  let r := host cmd in
  match RunErr r with
  | Some err => ([cmd], (Stdout r, Stderr r, Some err))
  | None => ([cmd], (Stdout r, Stderr r, None))
  end.

(** [fmt.Errorf] with the format of [ReplaceRules]; an error is its message. *)
Definition replaceError (stdout stderr err : string) : string :=
  "iptables-helper: fail to replace rules. stdout = " +:+ stdout +:+
  "; stderr = " +:+ stderr +:+ "; error = " +:+ err.

Definition ReplaceRules (host : Host) (h : IPTablesHelper) : list Cmd * option string :=
  let rules := GenerateInputFromRuleSet h in
  let '(ran, (stdout, stderr, err)) := runRestoreCommand host h [] rules in
  match err with
  | Some err => (ran, Some (replaceError stdout stderr err))
  | None => (ran, None)
  end.

(** *** The serialization format, line by line (section 4.3 of the spec) *)

Definition policyOf (tbl chain : string) : string :=
  if isInternalChain tbl chain then "ACCEPT" else "-".

Definition chainLine (tbl chain : string) : string :=
  ":" +:+ chain +:+ " " +:+ policyOf tbl chain +:+ " [0:0]".

Fixpoint spaced (args : list string) : string :=
  match args with
  | [] => ""
  | a :: rest => " " +:+ a +:+ spaced rest
  end.

Definition ruleLine (r : IPTablesRule) : string :=
  "-A " +:+ chain r +:+ spaced (rule r).

Definition tableLines (rs : IPTablesRuleSet) : list string :=
  ("*" +:+ table rs) :: (chainLine (table rs) <$> chains rs) ++ (ruleLine <$> rules rs) ++ ["COMMIT"].

(** Every line followed by a line feed. *)
Fixpoint unlines (ls : list string) : string :=
  match ls with
  | [] => ""
  | l :: rest => l +:+ LF +:+ unlines rest
  end.

(** The built-in chains of section 6. *)
Definition builtinChains : list (string * string) :=
  [ ("filter", "INPUT"); ("filter", "OUTPUT"); ("filter", "FORWARD");
    ("nat", "PREROUTING"); ("nat", "POSTROUTING"); ("nat", "OUTPUT");
    ("mangle", "PREROUTING"); ("mangle", "OUTPUT"); ("mangle", "FORWARD");
    ("mangle", "INPUT"); ("mangle", "POSTROUTING");
    ("raw", "PREROUTING"); ("raw", "OUTPUT") ].

(** [n] successive calls of [AppendUniqueRule] with the same arguments. *)
Fixpoint AppendUniqueRule_n (n : nat) (h : IPTablesHelper) (tbl chain : string)
    (rule : list string) : option IPTablesHelper :=
  match n with
  | O => Some h
  | S n' => h' ← AppendUniqueRule h tbl chain rule; AppendUniqueRule_n n' h' tbl chain rule
  end.

(** The states the helper can be in: [ruleSets] is unexported and written
    only by [CreateChain], [AppendUniqueRule] and [ClearAllRules]; the other
    exported functions are sequences of calls of these. *)
Inductive reachable : IPTablesHelper → Prop :=
  | reach_new proto : reachable (doCreateIPTablesHelper proto)
  | reach_CreateChain h tbl chain h' :
      reachable h → CreateChain h tbl chain = Some h' → reachable h'
  | reach_AppendUniqueRule h tbl chain rule h' :
      reachable h → AppendUniqueRule h tbl chain rule = Some h' → reachable h'
  | reach_ClearAllRules h : reachable h → reachable (ClearAllRules h).

#[global] Instance IPTablesRule_eq_dec : EqDecision IPTablesRule.
Proof. solve_decision. Defined.

(** The rules registered for a table: the rules of every rule set of that
    table, in the order they are rendered. *)
Definition rulesOf (h : IPTablesHelper) (tbl : string) : list IPTablesRule :=
  filter (λ rs, table rs = tbl) (ruleSets h) ≫= rules.

(** How many times a rule is registered. *)
Definition occurrences (r : IPTablesRule) (rs : list IPTablesRule) : nat :=
  length (filter (λ x, x = r) rs).

(** One rule set per table, and no rule twice in it. *)
Definition wellFormed (h : IPTablesHelper) : Prop :=
  NoDup (table <$> ruleSets h) ∧ Forall (λ rs, NoDup (rules rs)) (ruleSets h).

(** What [CreateChain] does to the chains of the table it finds. *)
Definition addChain (c : string) (cs : list string) : list string :=
  if findChain_from 0 cs c =? -1 then cs ++ [c] else cs.

(** The scan of [AppendUniqueRule] over the rules of the table. *)
Definition hasRule (c : string) (r : list string) (rs : list IPTablesRule) : bool :=
  existsb (fun elem => String.eqb (chain elem) c && rulesEqual (rule elem) r) rs.

Definition addRule (c : string) (r : list string) (rs : list IPTablesRule) : list IPTablesRule :=
  if hasRule c r rs then rs else rs ++ [mkRule c r].

(** *** The helpers built on [CreateChain] and [AppendUniqueRule] *)

(** A [for _, x := range l] loop whose body updates the helper; a panic in
    the body ends the loop. *)
Fixpoint forEach {A} (body : IPTablesHelper → A → option IPTablesHelper) (l : list A)
    (h : IPTablesHelper) : option IPTablesHelper :=
  match l with
  | [] => Some h
  | x :: rest => h ← body h x; forEach body rest h
  end.

Definition CreateFabEdgePostRoutingChain (h : IPTablesHelper) : option IPTablesHelper :=
  CreateChain h TableNat ChainFabEdgePostRouting.

Definition CreateFabEdgeInputChain (h : IPTablesHelper) : option IPTablesHelper :=
  CreateChain h TableFilter ChainFabEdgeInput.

Definition CreateFabEdgeForwardChain (h : IPTablesHelper) : option IPTablesHelper :=
  CreateChain h TableFilter ChainFabEdgeForward.

Definition CreateFabEdgeNatOutgoingChain (h : IPTablesHelper) : option IPTablesHelper :=
  CreateChain h TableNat ChainFabEdgeNatOutgoing.

Definition PreparePostRoutingChain (h : IPTablesHelper) : option IPTablesHelper :=
  h ← CreateChain h TableNat ChainFabEdgePostRouting;
  AppendUniqueRule h TableNat ChainPostRouting ["-j"; ChainFabEdgePostRouting].

Definition PrepareForwardChain (h : IPTablesHelper) : option IPTablesHelper :=
  h ← CreateChain h TableFilter ChainFabEdgeForward;
  AppendUniqueRule h TableFilter ChainForward ["-j"; ChainFabEdgeForward].

Definition MaintainForwardRulesForIPSet (h : IPTablesHelper) (ipsetNames : list string)
  : option IPTablesHelper :=
  h ← PrepareForwardChain h;
  h ← AppendUniqueRule h TableFilter ChainFabEdgeForward
        ["-m"; "conntrack"; "--ctstate"; "RELATED,ESTABLISHED"; "-j"; "ACCEPT"];
  forEach (λ h ipsetName,
      h ← AppendUniqueRule h TableFilter ChainFabEdgeForward
            ["-m"; "set"; "--match-set"; ipsetName; "src"; "-j"; "ACCEPT"];
      AppendUniqueRule h TableFilter ChainFabEdgeForward
            ["-m"; "set"; "--match-set"; ipsetName; "dst"; "-j"; "ACCEPT"])
    ipsetNames h.

Definition MaintainForwardRulesForSubnets (h : IPTablesHelper) (subnets : list string)
  : option IPTablesHelper :=
  forEach (λ h subnet,
      h ← AppendUniqueRule h TableFilter ChainFabEdgeForward ["-s"; subnet; "-j"; "ACCEPT"];
      AppendUniqueRule h TableFilter ChainFabEdgeForward ["-d"; subnet; "-j"; "ACCEPT"])
    subnets h.

Definition MaintainNatOutgoingRulesForSubnets (h : IPTablesHelper) (subnets : list string)
    (ipsetName : string) : option IPTablesHelper :=
  forEach (λ h subnet,
      h ← AppendUniqueRule h TableNat ChainFabEdgeNatOutgoing
            ["-s"; subnet; "-m"; "set"; "--match-set"; ipsetName; "dst"; "-j"; "RETURN"];
      h ← AppendUniqueRule h TableNat ChainFabEdgeNatOutgoing
            ["-s"; subnet; "-d"; subnet; "-j"; "RETURN"];
      h ← AppendUniqueRule h TableNat ChainFabEdgeNatOutgoing
            ["-s"; subnet; "-j"; ChainMasquerade];
      AppendUniqueRule h TableNat ChainPostRouting ["-j"; ChainFabEdgeNatOutgoing])
    subnets h.

Definition AddPostRoutingRuleForKubernetes (h : IPTablesHelper) : option IPTablesHelper :=
  h ← CreateChain h TableNat "KUBE-POSTROUTING";
  AppendUniqueRule h TableNat ChainFabEdgePostRouting
    ["-m"; "mark"; "--mark"; "0x4000/0x4000"; "-j"; "KUBE-POSTROUTING"].

Definition AddPostRoutingRulesForIPSet (h : IPTablesHelper) (ipsetName : string)
  : option IPTablesHelper :=
  h ← AppendUniqueRule h TableNat ChainFabEdgePostRouting
        ["-m"; "set"; "--match-set"; ipsetName; "dst"; "-j"; "ACCEPT"];
  AppendUniqueRule h TableNat ChainFabEdgePostRouting
        ["-m"; "set"; "--match-set"; ipsetName; "src"; "-j"; "ACCEPT"].

Definition AllowIPSec (h : IPTablesHelper) : option IPTablesHelper :=
  h ← AppendUniqueRule h TableFilter ChainInput ["-j"; ChainFabEdgeInput];
  h ← AppendUniqueRule h TableFilter ChainFabEdgeInput
        ["-p"; "udp"; "-m"; "udp"; "--dport"; "500"; "-j"; "ACCEPT"];
  h ← AppendUniqueRule h TableFilter ChainFabEdgeInput
        ["-p"; "udp"; "-m"; "udp"; "--dport"; "4500"; "-j"; "ACCEPT"];
  h ← AppendUniqueRule h TableFilter ChainFabEdgeInput ["-p"; "esp"; "-j"; "ACCEPT"];
  AppendUniqueRule h TableFilter ChainFabEdgeInput ["-p"; "ah"; "-j"; "ACCEPT"].

Definition AllowPostRoutingForIPSet (h : IPTablesHelper) (src dst : string)
  : option IPTablesHelper :=
  AppendUniqueRule h TableNat ChainFabEdgePostRouting
    ["-m"; "set"; "--match-set"; src; "src"; "-m"; "set"; "--match-set"; dst; "dst";
     "-j"; "ACCEPT"].

Definition MasqueradePostRoutingForIPSet (h : IPTablesHelper) (src dst : string)
  : option IPTablesHelper :=
  AppendUniqueRule h TableNat ChainFabEdgePostRouting
    ["-m"; "set"; "--match-set"; src; "src"; "-m"; "set"; "--match-set"; dst; "dst";
     "-j"; "MASQUERADE"].

(** A call of one of the exported functions that fill the accumulator. *)
Inductive Call :=
  | CallCreateChain (tbl chain : string)
  | CallAppendUniqueRule (tbl chain : string) (rule : list string)
  | CallCreateFabEdgePostRoutingChain
  | CallCreateFabEdgeInputChain
  | CallCreateFabEdgeForwardChain
  | CallCreateFabEdgeNatOutgoingChain
  | CallPreparePostRoutingChain
  | CallPrepareForwardChain
  | CallMaintainForwardRulesForIPSet (ipsetNames : list string)
  | CallMaintainForwardRulesForSubnets (subnets : list string)
  | CallMaintainNatOutgoingRulesForSubnets (subnets : list string) (ipsetName : string)
  | CallAddPostRoutingRuleForKubernetes
  | CallAddPostRoutingRulesForIPSet (ipsetName : string)
  | CallAllowIPSec
  | CallAllowPostRoutingForIPSet (src dst : string)
  | CallMasqueradePostRoutingForIPSet (src dst : string).

Definition exec (h : IPTablesHelper) (call : Call) : option IPTablesHelper :=
  match call with
  | CallCreateChain tbl chain => CreateChain h tbl chain
  | CallAppendUniqueRule tbl chain rule => AppendUniqueRule h tbl chain rule
  | CallCreateFabEdgePostRoutingChain => CreateFabEdgePostRoutingChain h
  | CallCreateFabEdgeInputChain => CreateFabEdgeInputChain h
  | CallCreateFabEdgeForwardChain => CreateFabEdgeForwardChain h
  | CallCreateFabEdgeNatOutgoingChain => CreateFabEdgeNatOutgoingChain h
  | CallPreparePostRoutingChain => PreparePostRoutingChain h
  | CallPrepareForwardChain => PrepareForwardChain h
  | CallMaintainForwardRulesForIPSet ipsetNames => MaintainForwardRulesForIPSet h ipsetNames
  | CallMaintainForwardRulesForSubnets subnets => MaintainForwardRulesForSubnets h subnets
  | CallMaintainNatOutgoingRulesForSubnets subnets ipsetName =>
      MaintainNatOutgoingRulesForSubnets h subnets ipsetName
  | CallAddPostRoutingRuleForKubernetes => AddPostRoutingRuleForKubernetes h
  | CallAddPostRoutingRulesForIPSet ipsetName => AddPostRoutingRulesForIPSet h ipsetName
  | CallAllowIPSec => AllowIPSec h
  | CallAllowPostRoutingForIPSet src dst => AllowPostRoutingForIPSet h src dst
  | CallMasqueradePostRoutingForIPSet src dst => MasqueradePostRoutingForIPSet h src dst
  end.

(** The rule set [findTable] selects for a table, if any. *)
Definition tableOf (h : IPTablesHelper) (tbl : string) : option IPTablesRuleSet :=
  index (ruleSets h) (findTable h tbl).

(** The chains and the rules of that rule set; none when the table is not
    registered. *)
Definition chainsAt (h : IPTablesHelper) (tbl : string) : list string :=
  from_option chains [] (tableOf h tbl).

Definition rulesAt (h : IPTablesHelper) (tbl : string) : list IPTablesRule :=
  from_option rules [] (tableOf h tbl).

(** The primitive calls, and a sequence of them. *)
Inductive Op :=
  | OpCreate (tbl chain : string)
  | OpAppend (tbl chain : string) (rule : list string).

Definition applyOp (h : IPTablesHelper) (op : Op) : option IPTablesHelper :=
  match op with
  | OpCreate tbl chain => CreateChain h tbl chain
  | OpAppend tbl chain rule => AppendUniqueRule h tbl chain rule
  end.

Definition run (ops : list Op) (h : IPTablesHelper) : option IPTablesHelper :=
  forEach applyOp ops h.

(** What an [Op] asks for is there: the chain is registered in the table
    and, for an append, so is the rule. *)
Definition satisfied (h : IPTablesHelper) (op : Op) : Prop :=
  match op with
  | OpCreate tbl chain => chain ∈ chainsAt h tbl
  | OpAppend tbl chain rule => chain ∈ chainsAt h tbl ∧ mkRule chain rule ∈ rulesAt h tbl
  end.

(** The primitive calls a [Call] makes, in order. *)
Definition opsOf (call : Call) : list Op :=
  match call with
  | CallCreateChain tbl chain => [OpCreate tbl chain]
  | CallAppendUniqueRule tbl chain rule => [OpAppend tbl chain rule]
  | CallCreateFabEdgePostRoutingChain => [OpCreate TableNat ChainFabEdgePostRouting]
  | CallCreateFabEdgeInputChain => [OpCreate TableFilter ChainFabEdgeInput]
  | CallCreateFabEdgeForwardChain => [OpCreate TableFilter ChainFabEdgeForward]
  | CallCreateFabEdgeNatOutgoingChain => [OpCreate TableNat ChainFabEdgeNatOutgoing]
  | CallPreparePostRoutingChain =>
      [OpCreate TableNat ChainFabEdgePostRouting;
       OpAppend TableNat ChainPostRouting ["-j"; ChainFabEdgePostRouting]]
  | CallPrepareForwardChain =>
      [OpCreate TableFilter ChainFabEdgeForward;
       OpAppend TableFilter ChainForward ["-j"; ChainFabEdgeForward]]
  | CallMaintainForwardRulesForIPSet ipsetNames =>
      [OpCreate TableFilter ChainFabEdgeForward;
       OpAppend TableFilter ChainForward ["-j"; ChainFabEdgeForward];
       OpAppend TableFilter ChainFabEdgeForward
         ["-m"; "conntrack"; "--ctstate"; "RELATED,ESTABLISHED"; "-j"; "ACCEPT"]]
      ++ (ipsetNames ≫= λ ipsetName,
            [OpAppend TableFilter ChainFabEdgeForward
               ["-m"; "set"; "--match-set"; ipsetName; "src"; "-j"; "ACCEPT"];
             OpAppend TableFilter ChainFabEdgeForward
               ["-m"; "set"; "--match-set"; ipsetName; "dst"; "-j"; "ACCEPT"]])
  | CallMaintainForwardRulesForSubnets subnets =>
      subnets ≫= λ subnet,
        [OpAppend TableFilter ChainFabEdgeForward ["-s"; subnet; "-j"; "ACCEPT"];
         OpAppend TableFilter ChainFabEdgeForward ["-d"; subnet; "-j"; "ACCEPT"]]
  | CallMaintainNatOutgoingRulesForSubnets subnets ipsetName =>
      subnets ≫= λ subnet,
        [OpAppend TableNat ChainFabEdgeNatOutgoing
           ["-s"; subnet; "-m"; "set"; "--match-set"; ipsetName; "dst"; "-j"; "RETURN"];
         OpAppend TableNat ChainFabEdgeNatOutgoing
           ["-s"; subnet; "-d"; subnet; "-j"; "RETURN"];
         OpAppend TableNat ChainFabEdgeNatOutgoing ["-s"; subnet; "-j"; ChainMasquerade];
         OpAppend TableNat ChainPostRouting ["-j"; ChainFabEdgeNatOutgoing]]
  | CallAddPostRoutingRuleForKubernetes =>
      [OpCreate TableNat "KUBE-POSTROUTING";
       OpAppend TableNat ChainFabEdgePostRouting
         ["-m"; "mark"; "--mark"; "0x4000/0x4000"; "-j"; "KUBE-POSTROUTING"]]
  | CallAddPostRoutingRulesForIPSet ipsetName =>
      [OpAppend TableNat ChainFabEdgePostRouting
         ["-m"; "set"; "--match-set"; ipsetName; "dst"; "-j"; "ACCEPT"];
       OpAppend TableNat ChainFabEdgePostRouting
         ["-m"; "set"; "--match-set"; ipsetName; "src"; "-j"; "ACCEPT"]]
  | CallAllowIPSec =>
      [OpAppend TableFilter ChainInput ["-j"; ChainFabEdgeInput];
       OpAppend TableFilter ChainFabEdgeInput
         ["-p"; "udp"; "-m"; "udp"; "--dport"; "500"; "-j"; "ACCEPT"];
       OpAppend TableFilter ChainFabEdgeInput
         ["-p"; "udp"; "-m"; "udp"; "--dport"; "4500"; "-j"; "ACCEPT"];
       OpAppend TableFilter ChainFabEdgeInput ["-p"; "esp"; "-j"; "ACCEPT"];
       OpAppend TableFilter ChainFabEdgeInput ["-p"; "ah"; "-j"; "ACCEPT"]]
  | CallAllowPostRoutingForIPSet src dst =>
      [OpAppend TableNat ChainFabEdgePostRouting
         ["-m"; "set"; "--match-set"; src; "src"; "-m"; "set"; "--match-set"; dst; "dst";
          "-j"; "ACCEPT"]]
  | CallMasqueradePostRoutingForIPSet src dst =>
      [OpAppend TableNat ChainFabEdgePostRouting
         ["-m"; "set"; "--match-set"; src; "src"; "-m"; "set"; "--match-set"; dst; "dst";
          "-j"; "MASQUERADE"]]
  end.

(** The rules of table [tbl] once [op] has run, from those before it. *)
Definition rulesAfter (tbl : string) (l : list IPTablesRule) (op : Op) : list IPTablesRule :=
  match op with
  | OpCreate _ _ => l
  | OpAppend t c r => if decide (t = tbl) then addRule c r l else l
  end.

(** The states the exported functions build from a new helper. *)
Inductive built : IPTablesHelper → Prop :=
  | built_new proto : built (doCreateIPTablesHelper proto)
  | built_exec h call h' : built h → exec h call = Some h' → built h'
  | built_clear h : built h → built (ClearAllRules h).

(** Every chain is registered once, and a rule sits in a registered chain. *)
Definition chainsDeclared (h : IPTablesHelper) : Prop :=
  Forall (λ rs, NoDup (chains rs) ∧ ∀ r, r ∈ rules rs → chain r ∈ chains rs) (ruleSets h).

(** [x] occurs in [l] before the first occurrence of [y]. *)
Definition precedes {A} (x y : A) (l : list A) : Prop :=
  ∃ l1 l2, l = l1 ++ y :: l2 ∧ x ∈ l1 ∧ y ∉ l1.

(** The three rules of [MaintainNatOutgoingRulesForSubnets] for a subnet. *)
Definition natReturnToSet (subnet ipsetName : string) : IPTablesRule :=
  mkRule ChainFabEdgeNatOutgoing
    ["-s"; subnet; "-m"; "set"; "--match-set"; ipsetName; "dst"; "-j"; "RETURN"].

Definition natReturnInternal (subnet : string) : IPTablesRule :=
  mkRule ChainFabEdgeNatOutgoing ["-s"; subnet; "-d"; subnet; "-j"; "RETURN"].

Definition natMasquerade (subnet : string) : IPTablesRule :=
  mkRule ChainFabEdgeNatOutgoing ["-s"; subnet; "-j"; ChainMasquerade].

(** The order of the rules of one subnet, or the masquerade rule not there
    yet. *)
Definition natPending (subnet ipsetName : string) (l : list IPTablesRule) : Prop :=
  natMasquerade subnet ∉ l ∨
  (precedes (natReturnToSet subnet ipsetName) (natMasquerade subnet) l ∧
   precedes (natReturnInternal subnet) (natMasquerade subnet) l).

End iptables.

(** ** [github.com/jjeffery/stringset] *)

Module stringset.

(** [type Set map[string]struct{}] *)
Abbreviation Set_ := (gset string).

Definition New : gset string := ∅.

Definition Contains (s : gset string) (value : string) : bool := bool_decide (value ∈ s).

Definition Add (s : gset string) (value : string) : gset string := {[value]} ∪ s.

Definition Remove (s : gset string) (value : string) : gset string := s ∖ {[value]}.

(** [Values] gives the members as a slice in increasing order, the byte-wise
    order of [sort.Strings]. The library is outside the repository; the
    node-name order of the specification rests on this. *)
Definition Values (s : gset string) : list string := merge_sort String.le (elements s).

End stringset.

(** ** The cluster objects the controller reads and writes *)

Module corev1.

(** The part of a [corev1.Node] the controller looks at. [InternalIP] and
    [PodCIDRs] are the status address and the spec field that package
    [nodeutil] extracts; [Edge] is the edge-node label. *)
Record Node := mkNode {
  Name : string;
  DeletionTimestamp : option Z;
  InternalIP : string;
  PodCIDRs : list string;
  Edge : bool;
}.

(** A [corev1.ConfigMap]; a [nil] [Data] map is [None]. *)
Record ConfigMap := mkConfigMap {
  cmName : string;
  cmNamespace : string;
  Data : option (gmap string string);
}.

(** [cm.Data[key]]: reading a missing key, or a [nil] map, gives [""]. *)
Definition DataAt (cm : ConfigMap) (key : string) : string :=
  match Data cm with
  | Some d => default "" (d !! key)
  | None => ""
  end.

End corev1.

Module nodeutil.

(** Modelled from the spec: package [nodeutil] is not part of the sources;
    the controller "extracts IP and PodCIDRs" of a node with it, the
    empty string when the node has no address. *)
Definition GetIP (node : corev1.Node) : string := corev1.InternalIP node.

(** Modelled from the spec: see [GetIP]. *)
Definition GetPodCIDRs (node : corev1.Node) : list string := corev1.PodCIDRs node.

(** Modelled from the spec: a label identifies edge nodes (section 6). *)
Definition IsEdgeNode (node : corev1.Node) : bool := corev1.Edge node.

End nodeutil.

Module netconf.

(** Modelled from the spec: the record of the configuration file (section 6),
    fields [id, name, publicAddresses, subnets, nodeSubnets, type]. *)
Record TunnelEndpoint := mkTunnelEndpoint {
  ID : string;
  Name : string;
  PublicAddresses : list string;
  Subnets : list string;
  NodeSubnets : list string;
  Type_ : string;
}.

Record NetworkConf := mkNetworkConf {
  TunnelEndpoint_ : TunnelEndpoint;
  Peers : list TunnelEndpoint;
}.

End netconf.

(** ** Package [types] *)

Module types.

(** Modelled from the spec: the Endpoint of the data model (section 3); the
    controller fills [ID], [Name], [PublicAddresses], [Subnets] and
    [NodeSubnets] and leaves the rest at its zero value. *)
Record Endpoint := mkEndpoint {
  ID : string;
  Name : string;
  PublicAddresses : list string;
  Subnets : list string;
  NodeSubnets : list string;
  Type_ : string;
}.

(** The zero value [types.Endpoint{}]. *)
Definition zeroEndpoint : Endpoint := mkEndpoint "" "" [] [] [] "".

(** Modelled from the spec: [ConvertToTunnelEndpoint] is not part of the
    sources; the file record has the fields of the Endpoint, copied one by
    one. *)
Definition ConvertToTunnelEndpoint (e : Endpoint) : netconf.TunnelEndpoint :=
  netconf.mkTunnelEndpoint (ID e) (Name e) (PublicAddresses e) (Subnets e) (NodeSubnets e) (Type_ e).

(** *** The agent argument map

    [type AgentArgumentMap map[string]string]; its methods are exercised by
    [agent_argument_map_test.go], their bodies are not part of the sources. *)
Abbreviation AgentArgumentMap := (gmap string string).

Definition NewAgentArgumentMap : gmap string string := ∅.

(** Modelled from the spec: [Set], [Get], [HasKey] and [Delete] as the test
    "can set, get and delete key and value pairs" uses them; [Get] of a
    missing key is the empty string. *)
Definition Set_ (m : gmap string string) (name value : string) : gmap string string :=
  <[name := value]> m.

(** Modelled from the spec: see [Set_]. *)
Definition Get (m : gmap string string) (name : string) : string := default "" (m !! name).

(** Modelled from the spec: see [Set_]. *)
Definition HasKey (m : gmap string string) (name : string) : bool := bool_decide (is_Some (m !! name)).

(** Modelled from the spec: see [Set_]. *)
Definition Delete (m : gmap string string) (name : string) : gmap string string := delete name m.

(** Modelled from the spec: "[enable-ipam] and [enable-proxy] are truthy only
    on literal string ["true"]" (section 6). *)
Definition IsIPAMEnabled (m : gmap string string) : bool := String.eqb (Get m "enable-ipam") "true".

(** Modelled from the spec: see [IsIPAMEnabled]. *)
Definition IsProxyEnabled (m : gmap string string) : bool := String.eqb (Get m "enable-proxy") "true".

(** Modelled from the spec: "the key [log-level] is rendered as the shorthand
    flag [v], is always emitted last, and all others are emitted sorted
    alphabetically" (section 6), each flag as [--name=value]. *)
Definition ArgumentArray (m : gmap string string) : list string :=
  let names := merge_sort String.le (elements (dom m ∖ {["log-level"]})) in
  ((λ name, "--" +:+ name +:+ "=" +:+ Get m name) <$> names) ++
  (if HasKey m "log-level" then ["--v=" +:+ Get m "log-level"] else []).

End types.

(** ** Package [store]: the Endpoint Store *)

Module storepkg.

(** Modelled from the spec: the store is not part of the sources. It is a map
    from endpoint name to Endpoint (section 4.1): [SaveEndpoint] inserts or
    replaces by [Name], [GetEndpoints] follows the argument order and skips
    missing names, [GetAllEndpointNames] is the key set. *)
Abbreviation Store := (gmap string types.Endpoint).

(** Modelled from the spec: see [Store]. *)
Definition SaveEndpoint (st : gmap string types.Endpoint) (e : types.Endpoint)
  : gmap string types.Endpoint := <[types.Name e := e]> st.

(** Modelled from the spec: see [Store]. *)
Definition DeleteEndpoint (st : gmap string types.Endpoint) (name : string)
  : gmap string types.Endpoint := delete name st.

(** Modelled from the spec: see [Store]. *)
Definition GetEndpoints (st : gmap string types.Endpoint) (names : list string)
  : list types.Endpoint := omap (λ name, st !! name) names.

(** Modelled from the spec: see [Store]. *)
Definition GetAllEndpointNames (st : gmap string types.Endpoint) : gset string := dom st.

(** The stores that [SaveEndpoint] and [DeleteEndpoint] build. *)
Inductive reachable : gmap string types.Endpoint → Prop :=
  | reach_empty : reachable ∅
  | reach_Save st e : reachable st → reachable (SaveEndpoint st e)
  | reach_Delete st name : reachable st → reachable (DeleteEndpoint st name).

End storepkg.

(** ** The cluster API client *)

Module client.

(** [client.ObjectKey]: namespace and name. *)
Abbreviation ObjectKey := (string * string)%type.

(** The errors of the API machinery the controller tells apart. *)
Inductive Error :=
  | NotFound
  | AlreadyExists
  | Other (msg : string).

(** [errors.IsNotFound(err)], [err] possibly [nil]. *)
Definition IsNotFound (err : option Error) : bool :=
  match err with
  | Some NotFound => true
  | _ => false
  end.

(** The write requests sent to the API server. *)
Inductive WriteCall :=
  | CreateCall (cm : corev1.ConfigMap)
  | UpdateCall (cm : corev1.ConfigMap).

(** The API server: its nodes, its config maps, and the write requests it
    has received so far, oldest first. *)
Record Cluster := mkCluster {
  nodes : gmap string corev1.Node;
  configMaps : gmap (string * string) corev1.ConfigMap;
  writes : list WriteCall;
}.

(** Each call takes [fault], the transient failure that hits it, if any. *)
Definition GetNode (cl : Cluster) (fault : option string) (name : string)
  : Error + corev1.Node :=
  match fault with
  | Some msg => inl (Other msg)
  | None => match nodes cl !! name with
            | Some node => inr node
            | None => inl NotFound
            end
  end.

Definition GetConfigMap (cl : Cluster) (fault : option string) (key : string * string)
  : Error + corev1.ConfigMap :=
  match fault with
  | Some msg => inl (Other msg)
  | None => match configMaps cl !! key with
            | Some cm => inr cm
            | None => inl NotFound
            end
  end.

Definition Create (cl : Cluster) (fault : option string) (cm : corev1.ConfigMap)
  : Cluster * option Error :=
  let key := (corev1.cmNamespace cm, corev1.cmName cm) in
  let log := writes cl ++ [CreateCall cm] in
  match fault with
  | Some msg => (mkCluster (nodes cl) (configMaps cl) log, Some (Other msg))
  | None => match configMaps cl !! key with
            | Some _ => (mkCluster (nodes cl) (configMaps cl) log, Some AlreadyExists)
            | None => (mkCluster (nodes cl) (<[key := cm]> (configMaps cl)) log, None)
            end
  end.

Definition Update (cl : Cluster) (fault : option string) (cm : corev1.ConfigMap)
  : Cluster * option Error :=
  let key := (corev1.cmNamespace cm, corev1.cmName cm) in
  let log := writes cl ++ [UpdateCall cm] in
  match fault with
  | Some msg => (mkCluster (nodes cl) (configMaps cl) log, Some (Other msg))
  | None => match configMaps cl !! key with
            | Some _ => (mkCluster (nodes cl) (<[key := cm]> (configMaps cl)) log, None)
            | None => (mkCluster (nodes cl) (configMaps cl) log, Some NotFound)
            end
  end.

(** The config maps are stored under their own namespace and name. *)
Definition wellKeyed (cl : Cluster) : Prop :=
  ∀ key cm, configMaps cl !! key = Some cm → (corev1.cmNamespace cm, corev1.cmName cm) = key.

End client.

(** ** Package [connector] *)

Module connector.

Definition controllerName : string := "connector-controller".

Record Node := mkNode {
  Name : string;
  IP : string;
  PodCIDRs : list string;
}.

(** The zero value [Node{}], what reading a missing key of [nodeCache] gives. *)
Definition zeroNode : Node := mkNode "" "" [].

(** [Config] without its [Store] and [Manager]: the store and the cluster are
    shared objects, passed to the functions that use them. *)
Record Config := mkConfig {
  ConnectorID : string;
  ConnectorName : string;
  ConnectorPublicAddresses : list string;
  ConnectorConfigName : string;
  ProvidedSubnets : list string;
  CollectPodCIDRs : bool;
  Namespace : string;
  Interval : Z;
}.

(** The controller, without its store, client, logger and mutex. *)
Record controller := mkController {
  configMapKey : string * string;
  interval : Z;
  connectorID : string;
  connectorName : string;
  connectorPublicAddress : list string;
  providedSubnets : list string;
  collectPodCIDRs : bool;
  nodeNameSet : gset string;
  nodeCache : gmap string Node;
  connectorEndpoint : types.Endpoint;
}.

Definition with_nodes (ctl : controller) (names : gset string) (cache : gmap string Node)
  : controller :=
  mkController (configMapKey ctl) (interval ctl) (connectorID ctl) (connectorName ctl)
    (connectorPublicAddress ctl) (providedSubnets ctl) (collectPodCIDRs ctl)
    names cache (connectorEndpoint ctl).

Definition with_connectorEndpoint (ctl : controller) (e : types.Endpoint) : controller :=
  mkController (configMapKey ctl) (interval ctl) (connectorID ctl) (connectorName ctl)
    (connectorPublicAddress ctl) (providedSubnets ctl) (collectPodCIDRs ctl)
    (nodeNameSet ctl) (nodeCache ctl) e.

(** The controller [AddToManager] allocates, before it is initialized. *)
Definition newController (cnf : Config) : controller :=
  {| configMapKey := (Namespace cnf, ConnectorConfigName cnf);
     interval := Interval cnf;
     connectorID := ConnectorID cnf;
     connectorName := ConnectorName cnf;
     connectorPublicAddress := ConnectorPublicAddresses cnf;
     providedSubnets := ProvidedSubnets cnf;
     collectPodCIDRs := CollectPodCIDRs cnf;
     nodeNameSet := stringset.New;
     nodeCache := ∅;
     connectorEndpoint := types.zeroEndpoint |}.

Definition rebuildConnectorEndpoint (ctl : controller) : controller :=
  let subnets := [] ++ providedSubnets ctl in
  let '(subnets, nodeSubnets) :=
    fold_left (λ '(subnets, nodeSubnets) nodeName,
        let node := default zeroNode (nodeCache ctl !! nodeName) in
        (subnets ++ PodCIDRs node, nodeSubnets ++ [IP node]))
      (stringset.Values (nodeNameSet ctl)) (subnets, []) in
  with_connectorEndpoint ctl
    {| types.ID := connectorID ctl;
       types.Name := connectorName ctl;
       types.PublicAddresses := connectorPublicAddress ctl;
       types.Subnets := subnets;
       types.NodeSubnets := nodeSubnets;
       types.Type_ := "" |}.

Definition addNode (ctl : controller) (node : corev1.Node) (rebuild : bool) : controller :=
  let ip := nodeutil.GetIP node in
  let podCIDRs := nodeutil.GetPodCIDRs node in
  if (String.length ip =? 0)%nat || (length podCIDRs =? 0)%nat then ctl
  else
    let podCIDRs := if negb (collectPodCIDRs ctl) then [] else podCIDRs in
    if stringset.Contains (nodeNameSet ctl) (corev1.Name node) then ctl
    else
      let ctl := with_nodes ctl
        (stringset.Add (nodeNameSet ctl) (corev1.Name node))
        (<[corev1.Name node := mkNode (corev1.Name node) ip podCIDRs]> (nodeCache ctl)) in
      if rebuild then rebuildConnectorEndpoint ctl else ctl.

Definition removeNode (ctl : controller) (nodeName : string) : controller :=
  rebuildConnectorEndpoint
    (with_nodes ctl (stringset.Remove (nodeNameSet ctl) nodeName) (delete nodeName (nodeCache ctl))).

(** The reconciler: [request] is the node name, the result is the new
    controller and the returned error. *)
Definition onNodeRequest (cl : client.Cluster) (fault : option string) (ctl : controller)
    (request : string) : controller * option client.Error :=
  match client.GetNode cl fault request with
  | inl err =>
      if client.IsNotFound (Some err) then (removeNode ctl request, None)
      else (ctl, Some err)
  | inr node =>
      match corev1.DeletionTimestamp node with
      | Some _ => (removeNode ctl request, None)
      | None => (addNode ctl node true, None)
      end
  end.

(** [items] is what [client.List] answers, or its error. *)
Definition initializeConnectorEndpoint (items : client.Error + list corev1.Node)
    (ctl : controller) : controller * option client.Error :=
  match items with
  | inl err => (ctl, Some err)
  | inr nodes =>
      let ctl := fold_left (λ ctl node,
                   if nodeutil.IsEdgeNode node then ctl else addNode ctl node false) nodes ctl in
      (rebuildConnectorEndpoint ctl, None)
  end.

Definition getConnectorEndpoint (ctl : controller) : types.Endpoint := connectorEndpoint ctl.

Definition getPeers (st : gmap string types.Endpoint) : list netconf.TunnelEndpoint :=
  let nameSet := storepkg.GetAllEndpointNames st in
  let endpoints := storepkg.GetEndpoints st (stringset.Values nameSet) in
  fold_left (λ peers ep, peers ++ [types.ConvertToTunnelEndpoint ep]) endpoints [].

#[global] Instance Endpoint_eq_dec : EqDecision types.Endpoint.
Proof. solve_decision. Defined.

(** The order of endpoints by [Name]. *)
Definition byName (a b : types.Endpoint) : Prop := String.le (types.Name a) (types.Name b).

#[global] Instance byName_dec : RelDecision byName.
Proof. intros a b. unfold byName. apply _. Defined.

(** The set [S] of endpoints held by the store. *)
Definition endpointsOf (st : gmap string types.Endpoint) : list types.Endpoint :=
  (map_to_list st).*2.

(** The Peers of the connector in the words of the specification (sections
    4.5 and 8): the sort-by-Name of [S \ {connector}]. *)
Definition peersAsSpecified (st : gmap string types.Endpoint) (self : types.Endpoint)
  : list netconf.TunnelEndpoint :=
  types.ConvertToTunnelEndpoint <$>
    merge_sort byName (filter (λ e, e ≠ self) (endpointsOf st)).

(** The [conf] that [updateConfigMapIfNeeded] builds and publishes. *)
Definition networkConf (st : gmap string types.Endpoint) (ctl : controller) : netconf.NetworkConf :=
  let connectorEndpoint := getConnectorEndpoint ctl in
  {| netconf.TunnelEndpoint_ := types.ConvertToTunnelEndpoint connectorEndpoint;
     netconf.Peers := getPeers st |}.

Section publication.

(** [yaml.Marshal] of a [NetworkConf], the bytes or the error, and the key
    [constants.ConnectorConfigFileName] of the artifact; both live outside
    the sources. *)
Variable yaml_Marshal : netconf.NetworkConf → string + string.
Variable ConnectorConfigFileName : string.

(** [None] is the panic of writing to a [nil] [Data] map. *)
Definition updateConfigMapIfNeeded (st : gmap string types.Endpoint) (cl : client.Cluster)
    (getFault writeFault : option string) (ctl : controller) : option client.Cluster :=
  let conf := networkConf st ctl in
  match yaml_Marshal conf with
  | inr _ => Some cl
  | inl confBytes =>
      let configData := confBytes in
      match client.GetConfigMap cl getFault (configMapKey ctl) with
      | inl err =>
          if negb (client.IsNotFound (Some err)) then Some cl
          else
            let cm := {| corev1.cmName := (configMapKey ctl).2;
                         corev1.cmNamespace := (configMapKey ctl).1;
                         corev1.Data := Some {[ ConnectorConfigFileName := configData ]} |} in
            Some (client.Create cl writeFault cm).1
      | inr cm =>
          if String.eqb (corev1.DataAt cm ConnectorConfigFileName) configData then Some cl
          else
            match corev1.Data cm with
            | None => None
            | Some d =>
                let cm := {| corev1.cmName := corev1.cmName cm;
                             corev1.cmNamespace := corev1.cmNamespace cm;
                             corev1.Data := Some (<[ConnectorConfigFileName := configData]> d) |} in
                Some (client.Update cl writeFault cm).1
            end
      end
  end.

End publication.

(** The controllers the node events build from a configuration. *)
Inductive reachable (cnf : Config) : controller → Prop :=
  | reach_newController : reachable cnf (newController cnf)
  | reach_addNode ctl node rebuild :
      reachable cnf ctl → reachable cnf (addNode ctl node rebuild)
  | reach_removeNode ctl nodeName :
      reachable cnf ctl → reachable cnf (removeNode ctl nodeName)
  | reach_rebuild ctl :
      reachable cnf ctl → reachable cnf (rebuildConnectorEndpoint ctl).

(** What the node events keep true of a controller built from [cnf]. *)
Record invariant (cnf : Config) (ctl : controller) : Prop := {
  inv_id : connectorID ctl = ConnectorID cnf;
  inv_name : connectorName ctl = ConnectorName cnf;
  inv_addresses : connectorPublicAddress ctl = ConnectorPublicAddresses cnf;
  inv_provided : providedSubnets ctl = ProvidedSubnets cnf;
  inv_collect : collectPodCIDRs ctl = CollectPodCIDRs cnf;
  inv_names : nodeNameSet ctl = dom (nodeCache ctl);
  inv_key : ∀ n node, nodeCache ctl !! n = Some node → Name node = n;
  inv_ip : ∀ n node, nodeCache ctl !! n = Some node → IP node ≠ "";
  inv_discard : CollectPodCIDRs cnf = false →
    ∀ n node, nodeCache ctl !! n = Some node → PodCIDRs node = [];
  inv_collected : CollectPodCIDRs cnf = true →
    ∀ n node, nodeCache ctl !! n = Some node → PodCIDRs node ≠ [];
}.

(** The cached nodes in the order [rebuildConnectorEndpoint] visits them. *)
Definition cachedNodes (ctl : controller) : list Node :=
  (λ nodeName, default zeroNode (nodeCache ctl !! nodeName)) <$>
    stringset.Values (nodeNameSet ctl).


Section publication_loop.

Variable yaml_Marshal : netconf.NetworkConf → string + string.
Variable ConnectorConfigFileName : string.



End publication_loop.

(** The controllers of a running operator: initialized from the listed
    nodes, then driven by reconcile requests. *)
Inductive running (cnf : Config) : controller → Prop :=
  | running_initialized items :
      running cnf (initializeConnectorEndpoint (inr items) (newController cnf)).1
  | running_request cl fault ctl request :
      running cnf ctl → running cnf (onNodeRequest cl fault ctl request).1.

(** A node [addNode] accepts: it has an IP and pod CIDRs. *)
Definition cacheable (node : corev1.Node) : Prop :=
  nodeutil.GetIP node ≠ "" ∧ nodeutil.GetPodCIDRs node ≠ [].

#[global] Instance cacheable_dec (node : corev1.Node) : Decision (cacheable node).
Proof. unfold cacheable. apply _. Defined.

(** The cache entry [addNode] writes for a node. *)
Definition entryOf (ctl : controller) (node : corev1.Node) : Node :=
  mkNode (corev1.Name node) (nodeutil.GetIP node)
    (if collectPodCIDRs ctl then nodeutil.GetPodCIDRs node else []).

End connector.

(** ** Concrete inputs: the scenarios of the specification *)

Module scenarios.
Import connector.

(** A store that holds the connector's own endpoint, and the controller that
    owns that endpoint. *)
Definition selfConfig : Config :=
  mkConfig "connector-id" "connector" ["connector.example"] "connector-config"
    ["192.168.0.0/16"] true "fabedge" 10.

Definition selfController : controller := rebuildConnectorEndpoint (newController selfConfig).

Definition selfStore : gmap string types.Endpoint :=
  storepkg.SaveEndpoint
    (storepkg.SaveEndpoint ∅ (types.mkEndpoint "edge1-id" "edge1" ["10.1.1.1"] ["10.244.9.0/24"] [] ""))
    (getConnectorEndpoint selfController).

(** The two nodes of the "connector rebuild" scenario. *)
Definition node1 : corev1.Node := corev1.mkNode "n1" None "10.0.0.1" ["10.244.1.0/24"] false.
Definition node2 : corev1.Node := corev1.mkNode "n2" None "10.0.0.2" ["10.244.2.0/24"] false.

Definition twoNodes : controller :=
  addNode (addNode (newController selfConfig) node2 true) node1 true.

(** The cluster first holds [node1]; then [node1] loses its address. *)
Definition clusterWith (node : corev1.Node) : client.Cluster :=
  client.mkCluster {[ corev1.Name node := node ]} ∅ [].

Definition node1NoIP : corev1.Node := corev1.mkNode "n1" None "" ["10.244.1.0/24"] false.

Definition oneNode : controller :=
  (onNodeRequest (clusterWith node1) None (newController selfConfig) "n1").1.

(** A node that is already cached, seen again with another address and
    another pod CIDR. *)
Definition node1Moved : corev1.Node :=
  corev1.mkNode "n1" None "10.0.0.99" ["10.244.99.0/24"] false.

(** A serializer for the examples: the names of the local endpoint and of
    its peers, one per line. *)
Definition namesOnly (conf : netconf.NetworkConf) : string + string :=
  inl (golang.Join (netconf.Name (netconf.TunnelEndpoint_ conf)
                      :: (netconf.Name <$> netconf.Peers conf)) golang.LF).

Definition publishedCluster : client.Cluster :=
  default (client.mkCluster ∅ ∅ [])
    (updateConfigMapIfNeeded namesOnly "tunnels.yaml" selfStore (client.mkCluster ∅ ∅ [])
       None None selfController).

(** The argument map of the "argument map ordering" scenario. *)
Definition scenarioArguments : gmap string string :=
  types.Set_ (types.Set_ (types.Set_ types.NewAgentArgumentMap "enable-proxy" "false") "enable-ipam" "true")
    "log-level" "3".


(** Two pod subnets and the address set of the peers. *)
Definition podSubnets : list string := ["10.244.1.0/24"; "10.244.2.0/24"].
Definition peerSet : string := "FABEDGE-PEER-CIDR".


(** A helper filled by three of the exported functions. *)
Definition helperIPSec : iptables.IPTablesHelper :=
  default iptables.NewIPTablesHelper (iptables.AllowIPSec iptables.NewIPTablesHelper).

Definition helperForward : iptables.IPTablesHelper :=
  default helperIPSec (iptables.MaintainForwardRulesForIPSet helperIPSec [peerSet]).

Definition filledHelper : iptables.IPTablesHelper :=
  default helperForward
    (iptables.MaintainNatOutgoingRulesForSubnets helperForward podSubnets peerSet).


(** Clusters for the publication: nothing stored yet; an artifact with an
    old payload beside another key; an artifact without data. *)
Definition emptyCluster : client.Cluster := client.mkCluster ∅ ∅ [].

Definition staleCluster : client.Cluster :=
  client.mkCluster ∅
    {[ ("fabedge", "connector-config") :=
         corev1.mkConfigMap "connector-config" "fabedge"
           (Some (<["tunnels.yaml" := "old"]> {[ "other" := "kept" ]})) ]} [].

Definition noDataCluster : client.Cluster :=
  client.mkCluster ∅
    {[ ("fabedge", "connector-config") :=
         corev1.mkConfigMap "connector-config" "fabedge" None ]} [].


(** An edge node, and a node without pod CIDRs. *)
Definition edgeNode : corev1.Node := corev1.mkNode "e1" None "10.1.0.1" ["10.245.1.0/24"] true.
Definition node3NoCIDR : corev1.Node := corev1.mkNode "n3" None "10.0.0.3" [] false.


(** An accumulator in which the jump of chain [B] was registered as the one
    word ["-j ACCEPT"]. *)
Definition jumpAsOneWord : iptables.IPTablesHelper :=
  default iptables.NewIPTablesHelper
    (iptables.AppendUniqueRule iptables.NewIPTablesHelper "filter" "B" ["-j ACCEPT"]).

End scenarios.

(** ** Strings *)

Section string_facts.

Lemma string_app_nil_l (s : string) : "" +:+ s = s.
Proof. reflexivity. Qed.

Lemma string_app_cons (a : ascii) (s t : string) : String a s +:+ t = String a (s +:+ t).
Proof. reflexivity. Qed.

Lemma string_app_nil_r (s : string) : s +:+ "" = s.
Proof.
  induction s as [|a s IH]; [reflexivity|].
  rewrite string_app_cons. by rewrite IH.
Qed.

Lemma string_app_assoc (s t u : string) : s +:+ (t +:+ u) = (s +:+ t) +:+ u.
Proof.
  induction s as [|a s IH]; [reflexivity|].
  rewrite !string_app_cons. by rewrite IH.
Qed.

End string_facts.

(** ** Facts about package [iptables] *)

Section iptables_format.
Import golang iptables.

Lemma unlines_app (l1 l2 : list string) : unlines (l1 ++ l2) = unlines l1 +:+ unlines l2.
Proof.
  induction l1 as [|l l1 IH]; [reflexivity|].
  cbn [app unlines]. rewrite IH. by rewrite !string_app_assoc.
Qed.

Lemma Join_spaced (e : string) (args : list string) :
  Join (e :: args) " " = e +:+ spaced args.
Proof.
  revert e. induction args as [|a args IH]; intros e.
  - cbn [Join spaced]. by rewrite string_app_nil_r.
  - change (Join (e :: a :: args) " ") with (e +:+ " " +:+ Join (a :: args) " ").
    rewrite IH. reflexivity.
Qed.

Lemma ruleLine_Join (r : IPTablesRule) :
  Join ("-A" :: chain r :: rule r) " " = ruleLine r.
Proof.
  change (Join ("-A" :: chain r :: rule r) " ")
    with ("-A" +:+ " " +:+ Join (chain r :: rule r) " ").
  rewrite Join_spaced. reflexivity.
Qed.

Lemma appendChains_unlines (tbl ret : string) (cs : list string) :
  appendChains tbl ret cs = ret +:+ unlines (chainLine tbl <$> cs).
Proof.
  unfold appendChains. revert ret.
  induction cs as [|c cs IH]; intros ret.
  - cbn [fold_left fmap list_fmap unlines]. by rewrite string_app_nil_r.
  - cbn [fold_left]. rewrite IH. cbn [fmap list_fmap unlines].
    rewrite <- !string_app_assoc. f_equal.
    unfold chainLine, policyOf. cbn [Join].
    rewrite <- !string_app_assoc. reflexivity.
Qed.

Lemma appendRules_unlines (ret : string) (rs : list IPTablesRule) :
  appendRules ret rs = ret +:+ unlines (ruleLine <$> rs).
Proof.
  unfold appendRules. revert ret.
  induction rs as [|r rs IH]; intros ret.
  - cbn [fold_left fmap list_fmap unlines]. by rewrite string_app_nil_r.
  - cbn [fold_left]. rewrite IH, ruleLine_Join. cbn [fmap list_fmap unlines].
    by rewrite <- !string_app_assoc.
Qed.

Lemma GenerateInput_fold (ret : string) (rss : list IPTablesRuleSet) :
  fold_left (fun ret ruleSet =>
    let ret := ret +:+ ("*" +:+ table ruleSet +:+ LF) in
    let ret := appendChains (table ruleSet) ret (chains ruleSet) in
    let ret := appendRules ret (rules ruleSet) in
    ret +:+ ("COMMIT" +:+ LF)) rss ret
  = ret +:+ unlines (rss ≫= tableLines).
Proof.
  revert ret. induction rss as [|rs rss IH]; intros ret.
  - cbn. by rewrite string_app_nil_r.
  - cbn [fold_left]. rewrite IH. cbn [mbind list_bind].
    rewrite unlines_app, appendRules_unlines, appendChains_unlines.
    unfold tableLines. cbn [unlines]. rewrite !unlines_app. cbn [unlines].
    rewrite string_app_nil_r.
    rewrite <- !string_app_assoc. reflexivity.
Qed.

Lemma isInternalChain_builtin (tbl chain : string) :
  isInternalChain tbl chain = true ↔ (tbl, chain) ∈ builtinChains.
Proof.
  split.
  - unfold isInternalChain.
    repeat match goal with
    | |- context [String.eqb ?a ?b] =>
        destruct (String.eqb_spec a b); subst; cbn [andb orb]
    end; try discriminate; intros _; unfold builtinChains; set_solver.
  - unfold builtinChains. intros H.
    repeat (apply elem_of_cons in H as [H|H]; [by inversion H|]).
    by apply elem_of_nil in H.
Qed.

Lemma policyOf_builtin (tbl chain : string) :
  policyOf tbl chain =
    if bool_decide ((tbl, chain) ∈ builtinChains) then "ACCEPT" else "-".
Proof.
  unfold policyOf. destruct (isInternalChain tbl chain) eqn:E.
  - apply isInternalChain_builtin in E. by rewrite bool_decide_eq_true_2.
  - rewrite bool_decide_eq_false_2; [done|].
    intros H%isInternalChain_builtin. congruence.
Qed.

End iptables_format.

Section iptables_index.
Import golang iptables.

Lemma index_app_len {A} (pre post : list A) (x : A) :
  index (pre ++ x :: post) (len pre) = Some x.
Proof.
  unfold index, len.
  destruct (Z.ltb_spec (Z.of_nat (length pre)) 0) as [?|_]; [lia|].
  rewrite Nat2Z.id. by apply list_lookup_middle.
Qed.

Lemma set_index_app_len {A} (pre post : list A) (x y : A) :
  set_index (pre ++ x :: post) (len pre) y = Some (pre ++ y :: post).
Proof.
  unfold set_index, len.
  destruct (Z.leb_spec 0 (Z.of_nat (length pre))) as [_|?]; [|lia].
  destruct (Z.ltb_spec (Z.of_nat (length pre)) (Z.of_nat (length (pre ++ x :: post)))) as [_|Hge].
  - cbn [andb]. rewrite Nat2Z.id.
    replace (length pre) with (length pre + 0)%nat at 1 by lia.
    by rewrite insert_app_r.
  - rewrite length_app in Hge. cbn [length] in Hge. lia.
Qed.

Lemma len_neq_minus_one {A} (l : list A) : (len l =? -1) = false.
Proof. unfold len. apply Z.eqb_neq. lia. Qed.

Lemma findTable_from_absent (i : Z) (rs : list IPTablesRuleSet) (tbl : string) :
  Forall (λ r, table r ≠ tbl) rs → findTable_from i rs tbl = -1.
Proof.
  revert i. induction rs as [|r rs IH]; intros i H; [reflexivity|].
  inversion H as [|? ? Hr Hrs]; subst. cbn [findTable_from].
  destruct (String.eqb_spec (table r) tbl); [done|]. by apply IH.
Qed.

Lemma findTable_from_first (i : Z) (pre post : list IPTablesRuleSet) (r : IPTablesRuleSet)
    (tbl : string) :
  Forall (λ r, table r ≠ tbl) pre → table r = tbl →
  findTable_from i (pre ++ r :: post) tbl = i + len pre.
Proof.
  revert i. induction pre as [|p pre IH]; intros i H Hr.
  - cbn [app findTable_from]. rewrite Hr, String.eqb_refl. unfold len. cbn. lia.
  - inversion H as [|? ? Hp Hpre]; subst. cbn [app findTable_from].
    destruct (String.eqb_spec (table p) (table r)); [done|].
    rewrite IH by done. unfold len. cbn [length]. lia.
Qed.

Lemma ruleSets_split (rs : list IPTablesRuleSet) (tbl : string) :
  Forall (λ r, table r ≠ tbl) rs ∨
  ∃ pre r post, rs = pre ++ r :: post ∧ Forall (λ r, table r ≠ tbl) pre ∧ table r = tbl.
Proof.
  induction rs as [|r rs IH]; [by left|].
  destruct (decide (table r = tbl)) as [Heq|Hne].
  - right. exists [], r, rs. by repeat split.
  - destruct IH as [IH|(pre & r' & post & -> & Hpre & Hr')].
    + left. by constructor.
    + right. exists (r :: pre), r', post. repeat split; [|done]. by constructor.
Qed.

Lemma findChain_from_absent (i : Z) (cs : list string) (c : string) :
  c ∉ cs → findChain_from i cs c = -1.
Proof.
  revert i. induction cs as [|e cs IH]; intros i H; [reflexivity|].
  cbn [findChain_from]. apply not_elem_of_cons in H as [Hne Hcs].
  destruct (String.eqb_spec c e); [done|]. by apply IH.
Qed.

Lemma findChain_from_present (i : Z) (cs : list string) (c : string) :
  c ∈ cs → i ≤ findChain_from i cs c.
Proof.
  revert i. induction cs as [|e cs IH]; intros i H; [by apply elem_of_nil in H|].
  cbn [findChain_from]. destruct (String.eqb_spec c e) as [|Hne]; [lia|].
  apply elem_of_cons in H as [?|H]; [done|]. specialize (IH (i + 1) H). lia.
Qed.

Lemma findChain_from_eqb (cs : list string) (c : string) :
  (findChain_from 0 cs c =? -1) = bool_decide (c ∉ cs).
Proof.
  destruct (decide (c ∈ cs)) as [Hin|Hnin].
  - rewrite bool_decide_eq_false_2 by (by intros ?).
    apply Z.eqb_neq. pose proof (findChain_from_present 0 cs c Hin). lia.
  - rewrite bool_decide_eq_true_2 by done.
    apply Z.eqb_eq. by apply findChain_from_absent.
Qed.

Lemma rulesEqual_loop_eq (one other : list string) :
  length one = length other → rulesEqual_loop one other = true ↔ one = other.
Proof.
  revert other. induction one as [|e one IH]; intros [|o other] Hlen;
    cbn [rulesEqual_loop length] in *; try lia; [done|].
  destruct (String.eqb_spec e o) as [->|Hne]; cbn [negb].
  - rewrite IH by lia. split; [by intros ->|by intros [= ->]].
  - split; [done|]. by intros [= ? ?].
Qed.

Lemma rulesEqual_eq (one other : list string) :
  rulesEqual one other = true ↔ one = other.
Proof.
  unfold rulesEqual, len.
  destruct (Z.eqb_spec (Z.of_nat (length one)) (Z.of_nat (length other))) as [Hlen|Hlen];
    cbn [negb].
  - apply rulesEqual_loop_eq. lia.
  - split; [done|]. intros ->. lia.
Qed.

End iptables_index.

Section iptables_update.
Import golang iptables.

Lemma with_ruleSets_id (h : IPTablesHelper) : with_ruleSets h (ruleSets h) = h.
Proof. by destruct h. Qed.

Lemma ruleSet_eta (rs : IPTablesRuleSet) : mkRuleSet (table rs) (chains rs) (rules rs) = rs.
Proof. by destruct rs. Qed.

Lemma findChain_at (h : IPTablesHelper) (c : string) pre rs post :
  ruleSets h = pre ++ rs :: post →
  findChain h (len pre) c = Some (findChain_from 0 (chains rs) c).
Proof. intros Hsplit. unfold findChain. by rewrite Hsplit, index_app_len. Qed.

Lemma CreateChain_absent (h : IPTablesHelper) (tbl c : string) :
  Forall (λ r, table r ≠ tbl) (ruleSets h) →
  CreateChain h tbl c = Some (with_ruleSets h (ruleSets h ++ [mkRuleSet tbl [c] []])).
Proof.
  intros Habs. unfold CreateChain, findTable.
  rewrite findTable_from_absent by done. cbn [Z.eqb Pos.eqb].
  unfold findChain. cbn [ruleSets with_ruleSets].
  replace (len (ruleSets h ++ [mkRuleSet tbl [] []]) - 1) with (len (ruleSets h))
    by (unfold len; rewrite length_app; cbn [length]; lia).
  rewrite index_app_len. cbn [mbind option_bind chains findChain_from Z.eqb].
  rewrite set_index_app_len. cbn [mbind option_bind table rules app].
  by destruct h.
Qed.

Lemma CreateChain_present (h : IPTablesHelper) (tbl c : string) pre rs post :
  ruleSets h = pre ++ rs :: post → Forall (λ r, table r ≠ tbl) pre → table rs = tbl →
  CreateChain h tbl c =
    Some (with_ruleSets h (pre ++ mkRuleSet (table rs) (addChain c (chains rs)) (rules rs) :: post)).
Proof.
  intros Hsplit Hpre Htbl. unfold CreateChain, findTable.
  rewrite Hsplit, findTable_from_first by done. rewrite Z.add_0_l, len_neq_minus_one.
  unfold findChain. rewrite Hsplit, index_app_len. cbn [mbind option_bind].
  unfold addChain. destruct (findChain_from 0 (chains rs) c =? -1).
  - rewrite set_index_app_len. reflexivity.
  - rewrite ruleSet_eta, <- Hsplit. by rewrite with_ruleSets_id.
Qed.

Lemma addChain_elem (c : string) (cs : list string) : c ∈ addChain c cs.
Proof.
  unfold addChain. rewrite findChain_from_eqb. case_bool_decide as H.
  - apply elem_of_app. right. by apply list_elem_of_singleton.
  - done.
Qed.

Lemma addChain_id (c : string) (cs : list string) : c ∈ cs → addChain c cs = cs.
Proof.
  intros H. unfold addChain. rewrite findChain_from_eqb.
  by rewrite bool_decide_eq_false_2 by (by intros ?).
Qed.

Lemma hasRule_elem (c : string) (r : list string) (rs : list IPTablesRule) :
  hasRule c r rs = true ↔ mkRule c r ∈ rs.
Proof.
  unfold hasRule. rewrite existsb_exists. split.
  - intros ([c' r'] & Hin & Heq). apply andb_true_iff in Heq as [Hc Hr].
    cbn in Hc, Hr. apply String.eqb_eq in Hc as ->. apply rulesEqual_eq in Hr as ->.
    by apply list_elem_of_In.
  - intros Hin. exists (mkRule c r). split; [by apply list_elem_of_In|].
    cbn. rewrite String.eqb_refl. cbn. by apply rulesEqual_eq.
Qed.

Lemma addRule_elem (c : string) (r : list string) (rs : list IPTablesRule) :
  mkRule c r ∈ addRule c r rs.
Proof.
  unfold addRule. destruct (hasRule c r rs) eqn:E.
  - by apply hasRule_elem.
  - apply elem_of_app. right. by apply list_elem_of_singleton.
Qed.

Lemma addRule_id (c : string) (r : list string) (rs : list IPTablesRule) :
  mkRule c r ∈ rs → addRule c r rs = rs.
Proof. intros H%hasRule_elem. unfold addRule. by rewrite H. Qed.

Lemma AppendUniqueRule_absent (h : IPTablesHelper) (tbl c : string) (r : list string) :
  Forall (λ r, table r ≠ tbl) (ruleSets h) →
  AppendUniqueRule h tbl c r =
    Some (with_ruleSets h (ruleSets h ++ [mkRuleSet tbl [c] [mkRule c r]])).
Proof.
  intros Habs. unfold AppendUniqueRule. unfold findTable at 1.
  rewrite findTable_from_absent by done. cbn [Z.eqb Pos.eqb].
  rewrite CreateChain_absent by done. cbn [mbind option_bind].
  unfold findTable. cbn [ruleSets with_ruleSets].
  rewrite findTable_from_first by done. rewrite Z.add_0_l.
  unfold findChain. cbn [ruleSets with_ruleSets].
  rewrite index_app_len. cbn [mbind option_bind chains findChain_from].
  rewrite String.eqb_refl. cbn [Z.eqb mbind option_bind ruleSets with_ruleSets].
  rewrite index_app_len. cbn [mbind option_bind rules existsb ruleSets with_ruleSets].
  rewrite set_index_app_len. cbn [mbind option_bind table chains app].
  by destruct h.
Qed.

Lemma AppendUniqueRule_present (h : IPTablesHelper) (tbl c : string) (r : list string)
    pre rs post :
  ruleSets h = pre ++ rs :: post → Forall (λ r, table r ≠ tbl) pre → table rs = tbl →
  AppendUniqueRule h tbl c r =
    Some (with_ruleSets h
            (pre ++ mkRuleSet (table rs) (addChain c (chains rs)) (addRule c r (rules rs)) :: post)).
Proof.
  intros Hsplit Hpre Htbl.
  assert (findTable h tbl = len pre) as Hft.
  { unfold findTable. rewrite Hsplit, findTable_from_first by done. lia. }
  unfold AppendUniqueRule. rewrite Hft, len_neq_minus_one.
  cbn [mbind option_bind].
  rewrite (findChain_at h c pre rs post Hsplit). cbn [mbind option_bind].
  assert (∃ h1, (if findChain_from 0 (chains rs) c =? -1
                 then h0 ← CreateChain h tbl c; _ ← findChain h0 (len pre) c; Some h0
                 else Some h) = Some h1 ∧
                ruleSets h1 = pre ++ mkRuleSet (table rs) (addChain c (chains rs)) (rules rs) :: post ∧
                with_ruleSets h1 = with_ruleSets h) as (h1 & -> & Hh1 & Hwith).
  { destruct (findChain_from 0 (chains rs) c =? -1) eqn:E.
    - rewrite (CreateChain_present h tbl c pre rs post) by done.
      cbn [mbind option_bind].
      erewrite findChain_at by reflexivity.
      cbn [mbind option_bind]. eexists. split; [done|].
      split; [done|]. by destruct h.
    - exists h. split; [done|]. unfold addChain. rewrite E, ruleSet_eta. done. }
  cbn [mbind option_bind]. rewrite Hh1, index_app_len. cbn [mbind option_bind rules table chains].
  fold (hasRule c r (rules rs)). unfold addRule.
  destruct (hasRule c r (rules rs)).
  - rewrite <- Hh1, <- Hwith. by rewrite with_ruleSets_id.
  - rewrite set_index_app_len. cbn [mbind option_bind]. by rewrite Hwith.
Qed.

End iptables_update.

Section iptables_invariant.
Import golang iptables.

Lemma filter_none {A} (P : A → Prop) `{∀ x, Decision (P x)} (l : list A) :
  (∀ x, x ∈ l → ¬ P x) → filter P l = [].
Proof.
  induction l as [|x l IH]; intros Hl; [done|].
  rewrite filter_cons_False by (apply Hl; by left).
  apply IH. intros y Hy. apply Hl. by right.
Qed.

Lemma filter_all {A} (P : A → Prop) `{∀ x, Decision (P x)} (l : list A) :
  (∀ x, x ∈ l → P x) → filter P l = l.
Proof.
  induction l as [|x l IH]; intros Hl; [done|].
  rewrite filter_cons_True by (apply Hl; by left).
  f_equal. apply IH. intros y Hy. apply Hl. by right.
Qed.

Lemma occurrences_NoDup (r : IPTablesRule) (rs : list IPTablesRule) :
  NoDup rs → r ∈ rs → occurrences r rs = 1%nat.
Proof.
  unfold occurrences. induction rs as [|x rs IH]; intros Hnd Hin.
  - by apply elem_of_nil in Hin.
  - apply NoDup_cons in Hnd as [Hx Hnd]. rewrite filter_cons.
    destruct (decide (x = r)) as [->|Hne].
    + cbn [length]. f_equal. apply length_zero_iff_nil.
      apply filter_none. by intros y Hy ->.
    + apply elem_of_cons in Hin as [->|Hin]; [done|]. by apply IH.
Qed.

Lemma addRule_NoDup (c : string) (r : list string) (rs : list IPTablesRule) :
  NoDup rs → NoDup (addRule c r rs).
Proof.
  intros Hnd. unfold addRule. destruct (hasRule c r rs) eqn:E; [done|].
  apply NoDup_app. split; [done|]. split; [|apply NoDup_singleton].
  intros x Hx ->%list_elem_of_singleton.
  apply hasRule_elem in Hx. congruence.
Qed.

Lemma addRule_inv (c : string) (r : list string) (rs : list IPTablesRule) (x : IPTablesRule) :
  x ∈ addRule c r rs → x ∈ rs ∨ x = mkRule c r.
Proof.
  unfold addRule. destruct (hasRule c r rs); [by left|].
  intros [?|?%list_elem_of_singleton]%elem_of_app; [by left|by right].
Qed.

Lemma wellFormed_new (proto : Protocol) : wellFormed (doCreateIPTablesHelper proto).
Proof. split; cbn; constructor. Qed.

Lemma wellFormed_Clear (h : IPTablesHelper) : wellFormed (ClearAllRules h).
Proof. split; cbn; constructor. Qed.

Lemma wellFormed_snoc (h : IPTablesHelper) (rs : IPTablesRuleSet) :
  wellFormed h → Forall (λ r, table r ≠ table rs) (ruleSets h) → NoDup (rules rs) →
  wellFormed (with_ruleSets h (ruleSets h ++ [rs])).
Proof.
  intros [Ht Hr] Habs Hnd. split; cbn [ruleSets with_ruleSets].
  - rewrite fmap_app. apply NoDup_app. split; [done|]. split; [|apply NoDup_singleton].
    intros t Ht' ->%list_elem_of_singleton.
    apply list_elem_of_fmap in Ht' as (r' & Heq & Hin).
    rewrite Forall_forall in Habs. by apply (Habs r' Hin).
  - apply Forall_app. split; [done|]. by constructor.
Qed.

Lemma wellFormed_replace (h : IPTablesHelper) pre rs rs' post :
  wellFormed h → ruleSets h = pre ++ rs :: post → table rs' = table rs → NoDup (rules rs') →
  wellFormed (with_ruleSets h (pre ++ rs' :: post)).
Proof.
  intros [Ht Hr] Hsplit Htbl Hnd. rewrite Hsplit in Ht, Hr.
  split; cbn [ruleSets with_ruleSets].
  - rewrite fmap_app, fmap_cons, Htbl. by rewrite fmap_app, fmap_cons in Ht.
  - apply Forall_app in Hr as [Hpre Hpost]. apply Forall_cons in Hpost as [_ Hpost].
    apply Forall_app. split; [done|]. by constructor.
Qed.

Lemma wellFormed_CreateChain (h h' : IPTablesHelper) (tbl c : string) :
  wellFormed h → CreateChain h tbl c = Some h' → wellFormed h'.
Proof.
  intros Hwf. destruct (ruleSets_split (ruleSets h) tbl) as [Habs|(pre & rs & post & Hs & Hpre & Ht)].
  - rewrite CreateChain_absent by done. intros [= <-].
    apply wellFormed_snoc; [done|done|constructor].
  - rewrite (CreateChain_present h tbl c pre rs post) by done. intros [= <-].
    apply (wellFormed_replace h pre rs _ post); [done..|].
    destruct Hwf as [_ Hr]. rewrite Hs in Hr.
    apply Forall_app in Hr as [_ Hr]. by apply Forall_cons in Hr as [? _].
Qed.

Lemma wellFormed_AppendUniqueRule (h h' : IPTablesHelper) (tbl c : string) (r : list string) :
  wellFormed h → AppendUniqueRule h tbl c r = Some h' → wellFormed h'.
Proof.
  intros Hwf. destruct (ruleSets_split (ruleSets h) tbl) as [Habs|(pre & rs & post & Hs & Hpre & Ht)].
  - rewrite AppendUniqueRule_absent by done. intros [= <-].
    apply wellFormed_snoc; [done|done|apply NoDup_singleton].
  - rewrite (AppendUniqueRule_present h tbl c r pre rs post) by done. intros [= <-].
    apply (wellFormed_replace h pre rs _ post); [done..|].
    apply addRule_NoDup. destruct Hwf as [_ Hr]. rewrite Hs in Hr.
    apply Forall_app in Hr as [_ Hr]. by apply Forall_cons in Hr as [? _].
Qed.

Lemma reachable_wellFormed (h : IPTablesHelper) : reachable h → wellFormed h.
Proof.
  induction 1 as [proto|h tbl c h' _ IH Hc|h tbl c r h' _ IH Ha|h _ IH].
  - apply wellFormed_new.
  - by eapply wellFormed_CreateChain.
  - by eapply wellFormed_AppendUniqueRule.
  - apply wellFormed_Clear.
Qed.

Lemma filter_table_unique (rss : list IPTablesRuleSet) (tbl : string) :
  NoDup (table <$> rss) →
  filter (λ rs, table rs = tbl) rss = [] ∨
  ∃ rs, filter (λ rs, table rs = tbl) rss = [rs] ∧ rs ∈ rss.
Proof.
  induction rss as [|x rss IH]; intros Hnd; [by left|].
  rewrite fmap_cons in Hnd. apply NoDup_cons in Hnd as [Hx Hnd].
  rewrite filter_cons. destruct (decide (table x = tbl)) as [Heq|Hne].
  - right. exists x. split; [|by left]. f_equal.
    apply filter_none. intros y Hy Hty. apply Hx.
    apply list_elem_of_fmap. exists y. split; [congruence|done].
  - destruct (IH Hnd) as [?|(rs & ? & ?)]; [by left|].
    right. exists rs. split; [done|by right].
Qed.

Lemma rulesOf_NoDup (h : IPTablesHelper) (tbl : string) :
  wellFormed h → NoDup (rulesOf h tbl).
Proof.
  intros [Ht Hr]. unfold rulesOf.
  destruct (filter_table_unique (ruleSets h) tbl Ht) as [->|(rs & -> & Hin)].
  - constructor.
  - cbn [mbind list_bind]. rewrite app_nil_r.
    rewrite Forall_forall in Hr. by apply Hr.
Qed.

Lemma AppendUniqueRule_total (h : IPTablesHelper) (tbl c : string) (r : list string) :
  ∃ h', AppendUniqueRule h tbl c r = Some h' ∧ mkRule c r ∈ rulesOf h' tbl.
Proof.
  destruct (ruleSets_split (ruleSets h) tbl) as [Habs|(pre & rs & post & Hs & Hpre & Ht)].
  - rewrite AppendUniqueRule_absent by done. eexists. split; [done|].
    unfold rulesOf. cbn [ruleSets with_ruleSets].
    apply list_elem_of_bind. exists (mkRuleSet tbl [c] [mkRule c r]). split; [by left|].
    apply list_elem_of_filter. split; [done|].
    apply elem_of_app. right. by left.
  - rewrite (AppendUniqueRule_present h tbl c r pre rs post) by done. eexists. split; [done|].
    unfold rulesOf. cbn [ruleSets with_ruleSets].
    apply list_elem_of_bind. eexists. split; [|apply list_elem_of_filter; split;
      [|apply elem_of_app; right; left]]; [apply addRule_elem|done].
Qed.

Lemma AppendUniqueRule_again (h h' : IPTablesHelper) (tbl c : string) (r : list string) :
  AppendUniqueRule h tbl c r = Some h' → AppendUniqueRule h' tbl c r = Some h'.
Proof.
  destruct (ruleSets_split (ruleSets h) tbl) as [Habs|(pre & rs & post & Hs & Hpre & Ht)].
  - rewrite AppendUniqueRule_absent by done. intros [= <-].
    rewrite (AppendUniqueRule_present _ tbl c r (ruleSets h) (mkRuleSet tbl [c] [mkRule c r]) [])
      by done.
    cbn [table chains rules]. rewrite addChain_id by (by left).
    rewrite addRule_id by (by left). by destruct h.
  - rewrite (AppendUniqueRule_present h tbl c r pre rs post) by done. intros [= <-].
    rewrite (AppendUniqueRule_present _ tbl c r pre
               (mkRuleSet (table rs) (addChain c (chains rs)) (addRule c r (rules rs))) post)
      by done.
    cbn [table chains rules].
    rewrite (addChain_id c (addChain c (chains rs))) by apply addChain_elem.
    rewrite (addRule_id c r (addRule c r (rules rs))) by apply addRule_elem. by destruct h.
Qed.

Lemma AppendUniqueRule_n_fixed (n : nat) (h : IPTablesHelper) (tbl c : string) (r : list string) :
  AppendUniqueRule h tbl c r = Some h → AppendUniqueRule_n n h tbl c r = Some h.
Proof.
  intros Hfix. induction n as [|n IH]; [done|].
  cbn [AppendUniqueRule_n]. rewrite Hfix. cbn [mbind option_bind]. done.
Qed.

End iptables_invariant.

(** ** Facts about [stringset] *)

Section stringset_facts.

Lemma Values_Sorted (s : gset string) : Sorted String.le (stringset.Values s).
Proof. apply Sorted_merge_sort. apply _. Qed.

Lemma Values_Permutation (s : gset string) : stringset.Values s ≡ₚ elements s.
Proof. apply merge_sort_Permutation. Qed.

Lemma Values_NoDup (s : gset string) : NoDup (stringset.Values s).
Proof. rewrite Values_Permutation. apply NoDup_elements. Qed.

Lemma elem_of_Values (s : gset string) (v : string) : v ∈ stringset.Values s ↔ v ∈ s.
Proof. rewrite Values_Permutation. apply elem_of_elements. Qed.

End stringset_facts.

(** ** Facts about package [connector] *)

Section connector_facts.
Import connector.

Lemma rebuild_fold (cache : gmap string Node) (names : list string)
    (subnets nodeSubnets : list string) :
  fold_left (λ '(subnets, nodeSubnets) nodeName,
      let node := default zeroNode (cache !! nodeName) in
      (subnets ++ PodCIDRs node, nodeSubnets ++ [IP node])) names (subnets, nodeSubnets)
  = (subnets ++ (((λ n, default zeroNode (cache !! n)) <$> names) ≫= PodCIDRs),
     nodeSubnets ++ (IP <$> ((λ n, default zeroNode (cache !! n)) <$> names))).
Proof.
  revert subnets nodeSubnets. induction names as [|n names IH]; intros subnets nodeSubnets.
  - cbn. by rewrite !app_nil_r.
  - cbn [fold_left]. rewrite IH. cbn [fmap list_fmap mbind list_bind].
    by rewrite <- !app_assoc.
Qed.

Lemma rebuild_endpoint (ctl : controller) :
  connectorEndpoint (rebuildConnectorEndpoint ctl) =
    {| types.ID := connectorID ctl;
       types.Name := connectorName ctl;
       types.PublicAddresses := connectorPublicAddress ctl;
       types.Subnets := providedSubnets ctl ++ (cachedNodes ctl ≫= PodCIDRs);
       types.NodeSubnets := IP <$> cachedNodes ctl;
       types.Type_ := "" |}.
Proof.
  unfold rebuildConnectorEndpoint. rewrite rebuild_fold. reflexivity.
Qed.

Lemma invariant_new (cnf : Config) : invariant cnf (newController cnf).
Proof.
  split; try done; cbn; try (by rewrite dom_empty_L);
    intros; by simplify_map_eq.
Qed.

Lemma invariant_rebuild (cnf : Config) (ctl : controller) :
  invariant cnf ctl → invariant cnf (rebuildConnectorEndpoint ctl).
Proof.
  intros []. unfold rebuildConnectorEndpoint. rewrite rebuild_fold. by split.
Qed.

Lemma invariant_removeNode (cnf : Config) (ctl : controller) (nodeName : string) :
  invariant cnf ctl → invariant cnf (removeNode ctl nodeName).
Proof.
  intros []. apply invariant_rebuild. split; cbn; try done.
  - unfold stringset.Remove. rewrite dom_delete_L. congruence.
  - intros n node [_ H]%lookup_delete_Some. eauto.
  - intros n node [_ H]%lookup_delete_Some. eauto.
  - intros Hc n node [_ H]%lookup_delete_Some. eauto.
  - intros Hc n node [_ H]%lookup_delete_Some. eauto.
Qed.

Lemma string_length_zero (s : string) : (String.length s =? 0)%nat = false → s ≠ "".
Proof. by intros H ->. Qed.

Lemma list_length_zero {A} (l : list A) : (length l =? 0)%nat = false → l ≠ [].
Proof. by intros H ->. Qed.

Lemma invariant_addNode (cnf : Config) (ctl : controller) (node : corev1.Node) (rebuild : bool) :
  invariant cnf ctl → invariant cnf (addNode ctl node rebuild).
Proof.
  intros Hinv. unfold addNode.
  destruct (String.length (nodeutil.GetIP node) =? 0)%nat eqn:Hip; [done|].
  destruct (length (nodeutil.GetPodCIDRs node) =? 0)%nat eqn:Hpod; [done|].
  cbn [orb]. destruct (stringset.Contains _ _); [done|].
  apply string_length_zero in Hip. apply list_length_zero in Hpod.
  assert (invariant cnf (with_nodes ctl
            (stringset.Add (nodeNameSet ctl) (corev1.Name node))
            (<[corev1.Name node :=
                 mkNode (corev1.Name node) (nodeutil.GetIP node)
                   (if negb (collectPodCIDRs ctl) then [] else nodeutil.GetPodCIDRs node)]>
               (nodeCache ctl)))) as Hinv'.
  { destruct Hinv. split; cbn; try done.
    - unfold stringset.Add. rewrite dom_insert_L. congruence.
    - intros n nd [[<- <-]|[_ H]]%lookup_insert_Some; [done|eauto].
    - intros n nd [[<- <-]|[_ H]]%lookup_insert_Some; [done|eauto].
    - intros Hc n nd [[<- <-]|[_ H]]%lookup_insert_Some; [|eauto].
      cbn. by rewrite inv_collect0, Hc.
    - intros Hc n nd [[<- <-]|[_ H]]%lookup_insert_Some; [|eauto].
      cbn. by rewrite inv_collect0, Hc. }
  destruct rebuild; [by apply invariant_rebuild|done].
Qed.

Lemma reachable_invariant (cnf : Config) (ctl : controller) :
  reachable cnf ctl → invariant cnf ctl.
Proof.
  induction 1 as [|ctl node rebuild _ IH|ctl nodeName _ IH|ctl _ IH].
  - apply invariant_new.
  - by apply invariant_addNode.
  - by apply invariant_removeNode.
  - by apply invariant_rebuild.
Qed.

Lemma cachedNodes_elem (cnf : Config) (ctl : controller) (node : Node) :
  invariant cnf ctl → node ∈ cachedNodes ctl ↔ nodeCache ctl !! Name node = Some node.
Proof.
  intros Hinv. unfold cachedNodes. rewrite list_elem_of_fmap. split.
  - intros (n & -> & Hn). apply elem_of_Values in Hn.
    rewrite (inv_names _ _ Hinv) in Hn. apply elem_of_dom in Hn as [nd Hnd].
    rewrite Hnd. cbn. by rewrite (inv_key _ _ Hinv _ _ Hnd).
  - intros Hnode. exists (Name node). rewrite Hnode. split; [done|].
    apply elem_of_Values. rewrite (inv_names _ _ Hinv). by apply elem_of_dom.
Qed.

Lemma cachedNodes_names (cnf : Config) (ctl : controller) :
  invariant cnf ctl → Name <$> cachedNodes ctl = stringset.Values (nodeNameSet ctl).
Proof.
  intros Hinv. unfold cachedNodes. rewrite <- list_fmap_compose.
  rewrite <- (list_fmap_id (stringset.Values _)) at 2.
  apply list_fmap_ext. intros i n Hn%list_elem_of_lookup_2. cbn.
  apply elem_of_Values in Hn. rewrite (inv_names _ _ Hinv) in Hn.
  apply elem_of_dom in Hn as [nd Hnd]. rewrite Hnd. cbn.
  by apply (inv_key _ _ Hinv).
Qed.

Lemma cachedNodes_discarded (cnf : Config) (ctl : controller) :
  invariant cnf ctl → CollectPodCIDRs cnf = false → cachedNodes ctl ≫= PodCIDRs = [].
Proof.
  intros Hinv Hc.
  assert (∀ node, node ∈ cachedNodes ctl → PodCIDRs node = []) as Hall.
  { intros node Hnode%(cachedNodes_elem cnf); [|done]. by eapply inv_discard. }
  induction (cachedNodes ctl) as [|nd l IH]; [done|].
  cbn [mbind list_bind]. rewrite Hall by (by left). cbn [app].
  apply IH. intros node Hnode. apply Hall. by right.
Qed.

End connector_facts.

(** ** Facts about the Endpoint Store and [getPeers] *)

Section store_facts.
Import connector.

Lemma store_key (st : gmap string types.Endpoint) :
  storepkg.reachable st → ∀ k e, st !! k = Some e → types.Name e = k.
Proof.
  induction 1 as [|st e _ IH|st name _ IH]; intros k e'.
  - by rewrite lookup_empty.
  - unfold storepkg.SaveEndpoint. intros [[<- <-]|[_ H]]%lookup_insert_Some; [done|eauto].
  - unfold storepkg.DeleteEndpoint. intros [_ H]%lookup_delete_Some. eauto.
Qed.

Lemma getPeers_fold (eps : list types.Endpoint) (peers : list netconf.TunnelEndpoint) :
  fold_left (λ peers ep, peers ++ [types.ConvertToTunnelEndpoint ep]) eps peers
  = peers ++ (types.ConvertToTunnelEndpoint <$> eps).
Proof.
  revert peers. induction eps as [|e eps IH]; intros peers.
  - cbn. by rewrite app_nil_r.
  - cbn [fold_left]. rewrite IH. cbn [fmap list_fmap]. by rewrite <- app_assoc.
Qed.

Lemma getPeers_fmap (st : gmap string types.Endpoint) :
  getPeers st = types.ConvertToTunnelEndpoint <$>
                  storepkg.GetEndpoints st (stringset.Values (storepkg.GetAllEndpointNames st)).
Proof. unfold getPeers. by rewrite getPeers_fold. Qed.

Lemma GetEndpoints_names (st : gmap string types.Endpoint) (names : list string) :
  (∀ k e, st !! k = Some e → types.Name e = k) →
  (∀ n, n ∈ names → n ∈ dom st) →
  types.Name <$> storepkg.GetEndpoints st names = names.
Proof.
  intros Hkey. unfold storepkg.GetEndpoints.
  induction names as [|n names IH]; intros Hdom; [done|].
  cbn [omap list_omap].
  destruct (st !! n) as [e|] eqn:E.
  - cbn [fmap list_fmap]. rewrite (Hkey _ _ E). f_equal.
    apply IH. intros m Hm. apply Hdom. by right.
  - exfalso. assert (n ∈ dom st) as [e He]%elem_of_dom by (apply Hdom; by left). congruence.
Qed.

Lemma GetEndpoints_elem (st : gmap string types.Endpoint) (e : types.Endpoint) :
  (∀ k e, st !! k = Some e → types.Name e = k) →
  e ∈ storepkg.GetEndpoints st (stringset.Values (storepkg.GetAllEndpointNames st))
  ↔ st !! types.Name e = Some e.
Proof.
  intros Hkey. unfold storepkg.GetEndpoints, storepkg.GetAllEndpointNames.
  rewrite list_elem_of_omap. split.
  - intros (n & _ & Hn). by rewrite (Hkey _ _ Hn).
  - intros He. exists (types.Name e). split; [|done].
    apply elem_of_Values, elem_of_dom. by eexists.
Qed.

#[local] Instance byName_trans : Transitive byName.
Proof. intros a b c. unfold byName. apply transitivity. Qed.

#[local] Instance byName_total : Total byName.
Proof. intros a b. unfold byName. apply total, _. Qed.

Lemma StronglySorted_byName (eps : list types.Endpoint) :
  StronglySorted String.le (types.Name <$> eps) → StronglySorted byName eps.
Proof.
  induction eps as [|e eps IH]; intros Hs; [constructor|].
  rewrite fmap_cons in Hs. apply StronglySorted_inv in Hs as [Hs Hall].
  constructor; [by apply IH|]. by rewrite Forall_fmap in Hall.
Qed.

Lemma StronglySorted_filter {A} (R : relation A) (P : A → Prop) `{∀ x, Decision (P x)}
    (l : list A) :
  StronglySorted R l → StronglySorted R (filter P l).
Proof.
  induction 1 as [|x l Hl IH Hall]; [constructor|].
  rewrite filter_cons. destruct (decide (P x)); [|done].
  constructor; [done|]. apply Forall_forall. intros y [_ Hy]%list_elem_of_filter.
  rewrite Forall_forall in Hall. by apply Hall.
Qed.

Lemma endpointsOf_elem (st : gmap string types.Endpoint) (e : types.Endpoint) :
  (∀ k e, st !! k = Some e → types.Name e = k) →
  e ∈ endpointsOf st ↔ st !! types.Name e = Some e.
Proof.
  intros Hkey. unfold endpointsOf. rewrite list_elem_of_fmap. split.
  - intros ([k e'] & -> & Hin%elem_of_map_to_list). cbn. by rewrite (Hkey _ _ Hin).
  - intros He. exists (types.Name e, e). split; [done|]. by apply elem_of_map_to_list.
Qed.

Lemma endpointsOf_NoDup (st : gmap string types.Endpoint) :
  (∀ k e, st !! k = Some e → types.Name e = k) → NoDup (endpointsOf st).
Proof.
  intros Hkey. unfold endpointsOf. apply NoDup_fmap_2_strong; [|apply NoDup_map_to_list].
  intros [k1 e1] [k2 e2] H1%elem_of_map_to_list H2%elem_of_map_to_list Heq.
  cbn in Heq. subst e2. f_equal. rewrite <- (Hkey _ _ H1). by apply Hkey.
Qed.

Lemma sorted_store_unique (st : gmap string types.Endpoint) (l eps : list types.Endpoint) :
  (∀ e, e ∈ eps → st !! types.Name e = Some e) →
  l ≡ₚ eps → StronglySorted byName eps → merge_sort byName l = eps.
Proof.
  intros Hst Hperm Hsorted.
  apply (StronglySorted_unique_strong byName);
    [|apply StronglySorted_merge_sort; apply _|done|].
  - intros x1 x2 Hx1 Hx2 H12 H21.
    rewrite merge_sort_Permutation, Hperm in Hx1.
    assert (types.Name x1 = types.Name x2) as Hname by (by apply (anti_symm String.le)).
    apply Hst in Hx1, Hx2. rewrite Hname in Hx1. congruence.
  - by rewrite merge_sort_Permutation.
Qed.

End store_facts.

(** * The properties of the specification *)

Section properties_connector.
Import connector scenarios.

Lemma selfStore_reachable : storepkg.reachable selfStore.
Proof.
  unfold selfStore. apply storepkg.reach_Save, storepkg.reach_Save, storepkg.reach_empty.
Qed.

(** C1, as stated: the Peers of the published NetworkConf are the
    sort-by-Name of [S \ {connector}], so that the connector's own endpoint
    never appears among its peers. It fails on the store that holds the
    endpoint of [edge1] and the connector's own endpoint: [getPeers] filters
    nothing and publishes both. *)
Lemma getPeers_keeps_connector :
  storepkg.reachable selfStore ∧
  netconf.Peers (networkConf selfStore selfController)
    ≠ peersAsSpecified selfStore (getConnectorEndpoint selfController) ∧
  types.ConvertToTunnelEndpoint (getConnectorEndpoint selfController)
    ∈ netconf.Peers (networkConf selfStore selfController).
Proof.
  split; [apply selfStore_reachable|]. split.
  - vm_compute. discriminate.
  - vm_compute. left.
Qed.

(** C1, amended: for every store built by saves and deletes, the Peers of
    the published NetworkConf are the sort-by-Name of the whole set [S] of
    stored endpoints, each once. Nothing is removed: the list agrees with
    the sort-by-Name of [S \ {connector}] when the connector's endpoint is
    not in the store, and contains the connector's endpoint when it is. *)
Theorem getPeers_all_endpoints_sorted (st : gmap string types.Endpoint) (ctl : controller) :
  storepkg.reachable st →
  let peers := netconf.Peers (networkConf st ctl) in
  peers = types.ConvertToTunnelEndpoint <$> merge_sort byName (endpointsOf st) ∧
  NoDup (endpointsOf st) ∧
  (∀ e, e ∈ endpointsOf st ↔ st !! types.Name e = Some e) ∧
  Sorted String.le (netconf.Name <$> peers) ∧
  (getConnectorEndpoint ctl ∉ endpointsOf st →
   peers = peersAsSpecified st (getConnectorEndpoint ctl)) ∧
  (getConnectorEndpoint ctl ∈ endpointsOf st →
   types.ConvertToTunnelEndpoint (getConnectorEndpoint ctl) ∈ peers).
Proof.
  intros Hst peers. pose proof (store_key st Hst) as Hkey.
  set (eps := storepkg.GetEndpoints st (stringset.Values (storepkg.GetAllEndpointNames st))).
  assert (peers = types.ConvertToTunnelEndpoint <$> eps) as Hpeers.
  { unfold peers. cbn [networkConf netconf.Peers]. by rewrite getPeers_fmap. }
  assert (types.Name <$> eps = stringset.Values (storepkg.GetAllEndpointNames st)) as Hnames.
  { apply GetEndpoints_names; [done|]. intros n Hn. by apply elem_of_Values in Hn. }
  assert (∀ e, e ∈ eps ↔ st !! types.Name e = Some e) as Helem.
  { intros e. by apply GetEndpoints_elem. }
  assert (NoDup eps) as Hnodup.
  { apply (NoDup_fmap_1 types.Name). rewrite Hnames. apply Values_NoDup. }
  assert (StronglySorted byName eps) as Hsorted.
  { apply StronglySorted_byName. rewrite Hnames.
    apply Sorted_StronglySorted; [apply _|apply Values_Sorted]. }
  assert (endpointsOf st ≡ₚ eps) as Hperm.
  { apply NoDup_Permutation; [by apply endpointsOf_NoDup|done|].
    intros e. by rewrite endpointsOf_elem, Helem. }
  assert (merge_sort byName (endpointsOf st) = eps) as Hsort.
  { apply (sorted_store_unique st); [|done..]. intros e. apply Helem. }
  split; [by rewrite Hsort|]. split; [by apply endpointsOf_NoDup|].
  split; [intros e; by apply endpointsOf_elem|]. split; [|split].
  - rewrite Hpeers, <- list_fmap_compose.
    replace (netconf.Name ∘ types.ConvertToTunnelEndpoint) with types.Name by done.
    rewrite Hnames. apply Values_Sorted.
  - intros Hself. rewrite Hpeers. unfold peersAsSpecified. f_equal. symmetry.
    apply (sorted_store_unique st).
    + intros e He. by apply Helem.
    + rewrite filter_all; [done|]. by intros e He ->.
    + done.
  - intros Hself. rewrite Hpeers. apply list_elem_of_fmap.
    exists (getConnectorEndpoint ctl). split; [done|]. by rewrite <- Hperm.
Qed.

(** The store that holds [edge1] and the connector: both are published. *)
Lemma getPeers_all_endpoints_sorted_witness :
  netconf.Peers (networkConf selfStore selfController)
    = types.ConvertToTunnelEndpoint <$> merge_sort byName (endpointsOf selfStore) ∧
  types.ConvertToTunnelEndpoint (getConnectorEndpoint selfController)
    ∈ netconf.Peers (networkConf selfStore selfController).
Proof.
  destruct (getPeers_all_endpoints_sorted selfStore selfController selfStore_reachable)
    as (Hall & _ & _ & _ & _ & Hself).
  split; [exact Hall|]. apply Hself. vm_compute. left.
Defined.

Lemma twoNodes_reachable : reachable selfConfig twoNodes.
Proof. unfold twoNodes. apply reach_addNode, reach_addNode, reach_newController. Qed.

(** C4: the rebuilt connector Endpoint is a function of the static
    configuration and the node cache alone. Its Subnets are the provided
    subnets followed, when CollectPodCIDRs is true, by the PodCIDRs of the
    cached nodes in increasing order of node name, and exactly the provided
    subnets when CollectPodCIDRs is false; its NodeSubnets are the IPs of the
    cached nodes in that same order. *)
Theorem rebuildConnectorEndpoint_spec (cnf : Config) (ctl : controller) :
  reachable cnf ctl →
  let ep := connectorEndpoint (rebuildConnectorEndpoint ctl) in
  let cached := cachedNodes ctl in
  (∀ node, node ∈ cached ↔ nodeCache ctl !! Name node = Some node) ∧
  NoDup (Name <$> cached) ∧
  Sorted String.le (Name <$> cached) ∧
  types.Subnets ep =
    ProvidedSubnets cnf ++ (if CollectPodCIDRs cnf then cached ≫= PodCIDRs else []) ∧
  types.NodeSubnets ep = IP <$> cached ∧
  types.ID ep = ConnectorID cnf ∧
  types.Name ep = ConnectorName cnf ∧
  types.PublicAddresses ep = ConnectorPublicAddresses cnf ∧
  (∀ ctl', reachable cnf ctl' → nodeCache ctl' = nodeCache ctl →
           connectorEndpoint (rebuildConnectorEndpoint ctl') = ep).
Proof.
  intros Hreach ep cached. pose proof (reachable_invariant cnf ctl Hreach) as Hinv.
  subst ep cached. rewrite rebuild_endpoint. cbn [types.Subnets types.NodeSubnets
    types.ID types.Name types.PublicAddresses].
  split; [intros node; by apply (cachedNodes_elem cnf)|].
  rewrite (cachedNodes_names cnf) by done.
  split; [apply Values_NoDup|]. split; [apply Values_Sorted|].
  split; [|split; [done|]].
  - rewrite (inv_provided _ _ Hinv). f_equal.
    destruct (CollectPodCIDRs cnf) eqn:Hc; [done|]. by apply (cachedNodes_discarded cnf).
  - split; [apply Hinv|]. split; [apply Hinv|]. split; [apply Hinv|].
    intros ctl' Hreach' Hcache. pose proof (reachable_invariant cnf ctl' Hreach') as Hinv'.
    rewrite rebuild_endpoint. unfold cachedNodes.
    rewrite (inv_names _ _ Hinv), (inv_names _ _ Hinv'), Hcache.
    rewrite (inv_id _ _ Hinv), (inv_id _ _ Hinv'), (inv_name _ _ Hinv), (inv_name _ _ Hinv').
    rewrite (inv_addresses _ _ Hinv), (inv_addresses _ _ Hinv').
    by rewrite (inv_provided _ _ Hinv), (inv_provided _ _ Hinv').
Qed.

(** The "connector rebuild" scenario: nodes [n1] and [n2], one provided
    subnet, CollectPodCIDRs true. *)
Lemma rebuildConnectorEndpoint_spec_witness :
  types.Subnets (connectorEndpoint (rebuildConnectorEndpoint twoNodes))
    = ["192.168.0.0/16"; "10.244.1.0/24"; "10.244.2.0/24"] ∧
  types.NodeSubnets (connectorEndpoint (rebuildConnectorEndpoint twoNodes))
    = ["10.0.0.1"; "10.0.0.2"].
Proof.
  destruct (rebuildConnectorEndpoint_spec selfConfig twoNodes twoNodes_reachable)
    as (_ & _ & _ & Hsub & Hnode & _).
  split; [rewrite Hsub|rewrite Hnode]; vm_compute; reflexivity.
Defined.

End properties_connector.

Section properties_reconcile.
Import connector scenarios.

Lemma oneNode_reachable : reachable selfConfig oneNode.
Proof.
  change oneNode with (addNode (newController selfConfig) node1 true).
  apply reach_addNode, reach_newController.
Qed.

(** C5, as stated in its last part: a node is removed from the cache when it
    loses its IP or PodCIDRs. It fails: [n1] is cached, the cluster then
    answers [n1] without an address, and after the reconcile event [n1] is
    still cached, with the address it had. *)
Lemma onNodeRequest_keeps_node_without_ip :
  reachable selfConfig oneNode ∧
  is_Some (nodeCache oneNode !! "n1") ∧
  client.GetNode (clusterWith node1NoIP) None "n1" = inr node1NoIP ∧
  nodeutil.GetIP node1NoIP = "" ∧
  nodeCache (onNodeRequest (clusterWith node1NoIP) None oneNode "n1").1 !! "n1"
    = Some (mkNode "n1" "10.0.0.1" ["10.244.1.0/24"]).
Proof.
  split; [apply oneNode_reachable|].
  split; [vm_compute; by eexists|].
  split; [vm_compute; reflexivity|].
  split; [reflexivity|].
  vm_compute. reflexivity.
Qed.

(** C5, amended: on a reconcile event whose fetch answers NotFound, or whose
    node has a deletion timestamp, the node is dropped from the name set and
    from the cache and no error is returned; on an event for a live node
    that has no IP or no PodCIDRs the controller is left as it was, so a node
    that is already cached stays cached. *)
Theorem onNodeRequest_lifetime (cl : client.Cluster) (fault : option string)
    (ctl : controller) (request : string) :
  ((client.GetNode cl fault request = inl client.NotFound ∨
    (∃ node ts, client.GetNode cl fault request = inr node ∧
                corev1.DeletionTimestamp node = Some ts)) →
   (request ∉ nodeNameSet (onNodeRequest cl fault ctl request).1) ∧
   nodeCache (onNodeRequest cl fault ctl request).1 !! request = None ∧
   (onNodeRequest cl fault ctl request).2 = None) ∧
  (∀ node, client.GetNode cl fault request = inr node →
           corev1.DeletionTimestamp node = None →
           nodeutil.GetIP node = "" ∨ nodeutil.GetPodCIDRs node = [] →
           onNodeRequest cl fault ctl request = (ctl, None)).
Proof.
  split.
  - assert ((request ∉ nodeNameSet (removeNode ctl request)) ∧
            nodeCache (removeNode ctl request) !! request = None) as [Hset Hcache].
    { unfold removeNode, rebuildConnectorEndpoint. rewrite rebuild_fold.
      cbn [nodeNameSet nodeCache with_connectorEndpoint with_nodes].
      split; [|apply lookup_delete_eq].
      unfold stringset.Remove. apply not_elem_of_difference. right.
      by apply elem_of_singleton. }
    unfold onNodeRequest. intros [->|(node & ts & -> & Hts)].
    + done.
    + by rewrite Hts.
  - intros node Hget Hts Hempty. unfold onNodeRequest. rewrite Hget, Hts.
    f_equal. unfold addNode. destruct Hempty as [->| ->]; [done|].
    by rewrite orb_true_r.
Qed.

(** [n1] is cached; it is dropped when the cluster no longer has it, and kept
    when the cluster answers it without an address. *)
Lemma onNodeRequest_lifetime_witness :
  (("n1" ∉ nodeNameSet (onNodeRequest (client.mkCluster ∅ ∅ []) None oneNode "n1").1) ∧
   nodeCache (onNodeRequest (client.mkCluster ∅ ∅ []) None oneNode "n1").1 !! "n1" = None ∧
   (onNodeRequest (client.mkCluster ∅ ∅ []) None oneNode "n1").2 = None) ∧
  onNodeRequest (clusterWith node1NoIP) None oneNode "n1" = (oneNode, None).
Proof.
  split.
  - apply (onNodeRequest_lifetime (client.mkCluster ∅ ∅ []) None oneNode "n1").
    left. reflexivity.
  - apply (onNodeRequest_lifetime (clusterWith node1NoIP) None oneNode "n1") with node1NoIP.
    + reflexivity.
    + reflexivity.
    + left. reflexivity.
Defined.

(** C10: [addNode] only inserts. For a node whose name is already in the
    node cache, [addNode] leaves the whole controller as it was (the cached
    entry and the connector endpoint included), whatever the IP and the
    PodCIDRs of the node are. *)
Theorem addNode_insert_only (cnf : Config) (ctl : controller) (node : corev1.Node)
    (rebuild : bool) :
  reachable cnf ctl →
  is_Some (nodeCache ctl !! corev1.Name node) →
  addNode ctl node rebuild = ctl.
Proof.
  intros Hreach Hcached. pose proof (reachable_invariant cnf ctl Hreach) as Hinv.
  unfold addNode.
  destruct (_ || _); [done|].
  unfold stringset.Contains. rewrite bool_decide_eq_true_2; [done|].
  rewrite (inv_names _ _ Hinv). by apply elem_of_dom.
Qed.

(** [n1] is cached; adding it again with another address changes nothing. *)
Lemma addNode_insert_only_witness :
  addNode oneNode node1Moved true = oneNode ∧
  nodeCache (addNode oneNode node1Moved true) !! "n1"
    = Some (mkNode "n1" "10.0.0.1" ["10.244.1.0/24"]).
Proof.
  assert (addNode oneNode node1Moved true = oneNode) as Heq.
  { apply (addNode_insert_only selfConfig oneNode node1Moved true oneNode_reachable).
    vm_compute. eexists. reflexivity. }
  split; [exact Heq|]. rewrite Heq. vm_compute. reflexivity.
Defined.

End properties_reconcile.

Section properties_publication.
Import connector scenarios.

(** C6: when the fetch of the configuration artifact succeeds and the
    payload it holds is byte-equal to the freshly serialized NetworkConf,
    [updateConfigMapIfNeeded] sends no write (no create, no update) to the
    cluster API and the stored artifacts are left as they were: the cluster,
    its log of write requests included, is unchanged. *)
Theorem updateConfigMapIfNeeded_no_change
    (yaml_Marshal : netconf.NetworkConf → string + string) (ConnectorConfigFileName : string)
    (st : gmap string types.Endpoint) (cl : client.Cluster)
    (getFault writeFault : option string) (ctl : controller)
    (cm : corev1.ConfigMap) (configData : string) :
  yaml_Marshal (networkConf st ctl) = inl configData →
  client.GetConfigMap cl getFault (configMapKey ctl) = inr cm →
  corev1.DataAt cm ConnectorConfigFileName = configData →
  ∃ cl', updateConfigMapIfNeeded yaml_Marshal ConnectorConfigFileName st cl
           getFault writeFault ctl = Some cl' ∧
         client.writes cl' = client.writes cl ∧
         client.configMaps cl' = client.configMaps cl ∧
         cl' = cl.
Proof.
  intros Hmarshal Hget Hdata. exists cl. split; [|done].
  unfold updateConfigMapIfNeeded. rewrite Hmarshal, Hget, Hdata.
  by rewrite String.eqb_refl.
Qed.

(** After a first publication has created the artifact, a second one with
    the same store and controller writes nothing. *)
Lemma updateConfigMapIfNeeded_no_change_witness :
  client.writes publishedCluster ≠ [] ∧
  ∃ cl', updateConfigMapIfNeeded namesOnly "tunnels.yaml" selfStore publishedCluster
           None None selfController = Some cl' ∧
         client.writes cl' = client.writes publishedCluster ∧
         client.configMaps cl' = client.configMaps publishedCluster ∧
         cl' = publishedCluster.
Proof.
  split; [by vm_compute|].
  refine (updateConfigMapIfNeeded_no_change namesOnly "tunnels.yaml" selfStore publishedCluster
            None None selfController _ _ _ _ _).
  - reflexivity.
  - vm_compute. reflexivity.
  - vm_compute. reflexivity.
Defined.

End properties_publication.

Section properties_iptables.
Import golang iptables scenarios.

Lemma header_not_COMMIT (s : string) : "*" +:+ s ≠ "COMMIT".
Proof. rewrite string_app_cons. by intros [=]. Qed.

Lemma chainLine_not_COMMIT (tbl c : string) : chainLine tbl c ≠ "COMMIT".
Proof. unfold chainLine. rewrite string_app_cons. by intros [=]. Qed.

Lemma ruleLine_not_COMMIT (r : IPTablesRule) : ruleLine r ≠ "COMMIT".
Proof. unfold ruleLine. rewrite string_app_cons. by intros [=]. Qed.

(** C2: the text of [GenerateInputFromRuleSet] is, for each rule set in
    turn, the line [*<table>], one line [:<chain> <policy> [0:0]] per
    registered chain, with policy [ACCEPT] exactly for the pairs of the
    built-in list and [-] otherwise, one line [-A <chain> <args...>] per
    registered rule, and the line [COMMIT]; every line ends with a line feed
    and exactly one of the lines of a table is [COMMIT]. *)
Theorem GenerateInputFromRuleSet_format (h : IPTablesHelper) :
  GenerateInputFromRuleSet h = unlines (ruleSets h ≫= tableLines) ∧
  (∀ rs : IPTablesRuleSet,
     tableLines rs =
       ("*" +:+ table rs)
       :: ((λ c, ":" +:+ c +:+ " " +:+
                 (if bool_decide ((table rs, c) ∈ builtinChains) then "ACCEPT" else "-")
                 +:+ " [0:0]") <$> chains rs)
       ++ ((λ r, "-A " +:+ chain r +:+ spaced (rule r)) <$> rules rs)
       ++ ["COMMIT"]) ∧
  (∀ rs : IPTablesRuleSet,
     length (filter (λ l, l = "COMMIT") (tableLines rs)) = 1%nat) ∧
  (∀ tbl c : string, isInternalChain tbl c = true ↔ (tbl, c) ∈ builtinChains).
Proof.
  split; [|split; [|split]].
  - unfold GenerateInputFromRuleSet. by rewrite GenerateInput_fold.
  - intros rs. unfold tableLines. f_equal. f_equal.
    apply list_fmap_ext. intros _ c _. unfold chainLine. by rewrite policyOf_builtin.
  - intros rs. unfold tableLines.
    rewrite filter_cons_False by apply header_not_COMMIT.
    rewrite !filter_app.
    rewrite (filter_none _ (chainLine (table rs) <$> chains rs)).
    2:{ intros l (c & -> & _)%list_elem_of_fmap. apply chainLine_not_COMMIT. }
    rewrite (filter_none _ (ruleLine <$> rules rs)).
    2:{ intros l (r & -> & _)%list_elem_of_fmap. apply ruleLine_not_COMMIT. }
    reflexivity.
  - apply isInternalChain_builtin.
Qed.

(** The "dedup of rules" scenario: the same rule appended three times to an
    empty accumulator is rendered once. *)
Example AppendUniqueRule_three_times :
  GenerateInputFromRuleSet <$>
    AppendUniqueRule_n 3 NewIPTablesHelper "filter" "FABEDGE-FORWARD" ["-j"; "ACCEPT"]
  = Some ("*filter" +:+ LF +:+ ":FABEDGE-FORWARD - [0:0]" +:+ LF +:+
          "-A FABEDGE-FORWARD -j ACCEPT" +:+ LF +:+ "COMMIT" +:+ LF).
Proof. vm_compute. reflexivity. Qed.

Lemma header_not_ruleLine (s : string) (r : IPTablesRule) : "*" +:+ s ≠ ruleLine r.
Proof. unfold ruleLine. rewrite !string_app_cons. by intros [=]. Qed.

Lemma chainLine_not_ruleLine (tbl c : string) (r : IPTablesRule) : chainLine tbl c ≠ ruleLine r.
Proof. unfold chainLine, ruleLine. rewrite !string_app_cons. by intros [=]. Qed.

Lemma COMMIT_not_ruleLine (r : IPTablesRule) : "COMMIT" ≠ ruleLine r.
Proof. unfold ruleLine. rewrite !string_app_cons. by intros [=]. Qed.

Lemma filter_fmap_length {A B} (f : A → B) (P : B → Prop) `{∀ y, Decision (P y)}
    (l : list A) :
  length (filter P (f <$> l)) = length (filter (λ x, P (f x)) l).
Proof.
  induction l as [|x l IH]; [done|].
  rewrite fmap_cons, !filter_cons. destruct (decide (P (f x))); cbn [length]; by rewrite IH.
Qed.

Lemma filter_ext_in {A} (P Q : A → Prop) `{∀ x, Decision (P x)} `{∀ x, Decision (Q x)}
    (l : list A) :
  (∀ x, x ∈ l → P x ↔ Q x) → filter P l = filter Q l.
Proof.
  induction l as [|x l IH]; intros Hext; [done|].
  rewrite !filter_cons. assert (P x ↔ Q x) as Hx by (apply Hext; by left).
  rewrite IH by (intros y Hy; apply Hext; by right).
  destruct (decide (P x)), (decide (Q x)); tauto.
Qed.

(** The lines of a table that are the line of a rule: as many as the
    registered rules that are rendered to that line. *)
Lemma ruleLine_count (rs : IPTablesRuleSet) (r : IPTablesRule) :
  length (filter (λ l, l = ruleLine r) (tableLines rs))
  = length (filter (λ x, ruleLine x = ruleLine r) (rules rs)).
Proof.
  unfold tableLines.
  rewrite filter_cons_False by apply header_not_ruleLine.
  rewrite !filter_app.
  rewrite (filter_none _ (chainLine (table rs) <$> chains rs)).
  2:{ intros l (c & -> & _)%list_elem_of_fmap. apply chainLine_not_ruleLine. }
  rewrite (filter_none _ ["COMMIT"]).
  2:{ intros l ->%list_elem_of_singleton. apply COMMIT_not_ruleLine. }
  rewrite app_nil_l, app_nil_r. apply filter_fmap_length.
Qed.

Lemma render_split (h : IPTablesHelper) before rs after :
  ruleSets h = before ++ rs :: after →
  GenerateInputFromRuleSet h =
    unlines (before ≫= tableLines) +:+ unlines (tableLines rs) +:+
    unlines (after ≫= tableLines).
Proof.
  intros Hs. unfold GenerateInputFromRuleSet. rewrite GenerateInput_fold, string_app_nil_l.
  by rewrite Hs, bind_app, bind_cons, !unlines_app.
Qed.

Lemma jumpAsOneWord_reachable : reachable jumpAsOneWord.
Proof.
  apply (reach_AppendUniqueRule NewIPTablesHelper "filter" "B" ["-j ACCEPT"]);
    [apply reach_new|by vm_compute].
Qed.

(** C3, as stated in its last part: a rule appended several times to the
    same chain appears exactly once in the rendered table. It fails: rules
    are told apart by their argument vectors, not by their text. In an
    accumulator that holds the rule of chain [B] with the one argument
    ["-j ACCEPT"], the rule with the two arguments ["-j"] and ["ACCEPT"],
    appended three times, is registered beside it, and the table is
    rendered with the line [-A B -j ACCEPT] twice. *)
Lemma AppendUniqueRule_same_line_twice :
  reachable jumpAsOneWord ∧
  GenerateInputFromRuleSet <$>
    AppendUniqueRule_n 3 jumpAsOneWord "filter" "B" ["-j"; "ACCEPT"]
  = Some ("*filter" +:+ LF +:+ ":B - [0:0]" +:+ LF +:+
          "-A B -j ACCEPT" +:+ LF +:+ "-A B -j ACCEPT" +:+ LF +:+ "COMMIT" +:+ LF) ∧
  (λ h3, length (filter (λ l, l = ruleLine (mkRule "B" ["-j"; "ACCEPT"]))
                   (ruleSets h3 ≫= tableLines))) <$>
    AppendUniqueRule_n 3 jumpAsOneWord "filter" "B" ["-j"; "ACCEPT"]
  = Some 2%nat.
Proof.
  split; [apply jumpAsOneWord_reachable|]. split; by vm_compute.
Qed.

(** C3, amended: [AppendUniqueRule] is idempotent. From any accumulator,
    [n >= 1] successive calls with the same table, chain and arguments never
    panic and end in the state of the first call, hence in the same
    serialized ruleset. When the accumulator was built through the helper's
    own functions, the serialized ruleset has one block for the table, the
    rule is registered exactly once in it, and the block has as many lines
    [-A <chain> <args...>] of the rule as the table has registered rules
    rendered to that text: exactly one when no other registered rule of the
    table is rendered to the same text. *)
Theorem AppendUniqueRule_idempotent (h : IPTablesHelper) (tbl c : string) (r : list string)
    (n : nat) :
  (1 ≤ n)%nat →
  ∃ h1, AppendUniqueRule h tbl c r = Some h1 ∧
        AppendUniqueRule_n n h tbl c r = Some h1 ∧
        GenerateInputFromRuleSet <$> AppendUniqueRule_n n h tbl c r
          = GenerateInputFromRuleSet <$> AppendUniqueRule h tbl c r ∧
        (reachable h →
         ∃ before rs after,
           ruleSets h1 = before ++ rs :: after ∧
           table rs = tbl ∧
           Forall (λ x, table x ≠ tbl) (before ++ after) ∧
           GenerateInputFromRuleSet h1 =
             unlines (before ≫= tableLines) +:+ unlines (tableLines rs) +:+
             unlines (after ≫= tableLines) ∧
           occurrences (mkRule c r) (rules rs) = 1%nat ∧
           length (filter (λ l, l = ruleLine (mkRule c r)) (tableLines rs))
             = length (filter (λ x, ruleLine x = ruleLine (mkRule c r)) (rules rs)) ∧
           ((∀ x, x ∈ rulesOf h tbl → ruleLine x = ruleLine (mkRule c r) → x = mkRule c r) →
            length (filter (λ l, l = ruleLine (mkRule c r)) (tableLines rs)) = 1%nat)).
Proof.
  intros Hn. destruct (AppendUniqueRule_total h tbl c r) as (h1 & Hfirst & Hin).
  assert (AppendUniqueRule_n n h tbl c r = Some h1) as Hiter.
  { destruct n as [|n]; [lia|]. cbn [AppendUniqueRule_n]. rewrite Hfirst.
    cbn [mbind option_bind]. apply AppendUniqueRule_n_fixed.
    by apply (AppendUniqueRule_again h). }
  exists h1. split; [done|]. split; [done|]. split; [by rewrite Hiter, Hfirst|].
  intros Hreach. destruct (reachable_wellFormed h Hreach) as [Htables Hrules].
  assert (∃ before rs after,
            ruleSets h1 = before ++ rs :: after ∧ table rs = tbl ∧
            Forall (λ x, table x ≠ tbl) (before ++ after) ∧
            NoDup (rules rs) ∧ mkRule c r ∈ rules rs ∧
            ∀ x, x ∈ rules rs → x ∈ rulesOf h tbl ∨ x = mkRule c r)
    as (before & rs & after & Hs & Ht & Hothers & Hnd & Hr & Hfrom).
  { destruct (ruleSets_split (ruleSets h) tbl) as [Habs|(pre & rs & post & Hsplit & Hpre & Ht)].
    - rewrite AppendUniqueRule_absent in Hfirst by done. injection Hfirst as <-.
      exists (ruleSets h), (mkRuleSet tbl [c] [mkRule c r]), [].
      split; [done|]. split; [done|]. split; [by rewrite app_nil_r|].
      cbn [rules]. split; [apply NoDup_singleton|]. split; [by left|].
      intros x ->%list_elem_of_singleton. by right.
    - rewrite (AppendUniqueRule_present h tbl c r pre rs post) in Hfirst by done.
      injection Hfirst as <-.
      exists pre, (mkRuleSet (table rs) (addChain c (chains rs)) (addRule c r (rules rs))), post.
      rewrite Hsplit in Htables, Hrules.
      apply Forall_app in Hrules as [_ Hrules]. apply Forall_cons in Hrules as [Hnd _].
      split; [done|]. split; [done|]. split; [|split; [by apply addRule_NoDup|]].
      + apply Forall_app. split; [done|]. apply Forall_forall. intros x Hx Hxt.
        rewrite fmap_app, fmap_cons in Htables.
        apply NoDup_app in Htables as (_ & _ & Htables).
        apply NoDup_cons in Htables as [Hnot _]. apply Hnot.
        apply list_elem_of_fmap. exists x. split; [congruence|done].
      + cbn [rules]. split; [apply addRule_elem|].
        intros x [Hx|Hx]%addRule_inv; [left|by right].
        unfold rulesOf. apply list_elem_of_bind. exists rs. split; [done|].
        apply list_elem_of_filter. split; [done|]. rewrite Hsplit.
        apply elem_of_app. right. by left. }
  exists before, rs, after. split; [done|]. split; [done|]. split; [done|].
  split; [by apply render_split|]. split; [by apply occurrences_NoDup|].
  split; [apply ruleLine_count|].
  intros Hunique. rewrite ruleLine_count.
  rewrite (filter_ext_in _ (λ x, x = mkRule c r)); [by apply occurrences_NoDup|].
  intros x Hx. split; [|by intros ->]. intros Hline.
  destruct (Hfrom x Hx) as [Hold|Hnew]; [by apply Hunique|done].
Qed.

(** The "dedup of rules" scenario: on a new helper no other rule is
    rendered as the appended one, and the table has its line once. *)
Lemma AppendUniqueRule_idempotent_witness :
  ∃ h1, AppendUniqueRule_n 3 NewIPTablesHelper "filter" "FABEDGE-FORWARD" ["-j"; "ACCEPT"]
          = Some h1 ∧
        ∃ before rs after,
          GenerateInputFromRuleSet h1 =
            unlines (before ≫= tableLines) +:+ unlines (tableLines rs) +:+
            unlines (after ≫= tableLines) ∧
          table rs = "filter" ∧
          length (filter (λ l, l = "-A FABEDGE-FORWARD -j ACCEPT") (tableLines rs)) = 1%nat.
Proof.
  destruct (AppendUniqueRule_idempotent NewIPTablesHelper "filter" "FABEDGE-FORWARD"
              ["-j"; "ACCEPT"] 3) as (h1 & _ & Hiter & _ & Hrendered).
  - lia.
  - exists h1. split; [exact Hiter|].
    destruct (Hrendered (reach_new ProtocolIPv4))
      as (before & rs & after & _ & Ht & _ & Htext & _ & _ & Honce).
    exists before, rs, after. split; [exact Htext|]. split; [exact Ht|].
    apply Honce. intros x Hx. vm_compute in Hx. by apply elem_of_nil in Hx.
Defined.

Lemma Substring_middle (pre s post : string) : Substring s (pre +:+ s +:+ post).
Proof. by exists pre, post. Qed.

(** C7: [ReplaceRules] runs the restore command once, with the single
    argument [--wait] and the serialized ruleset as its input. When the
    command fails with exit state [err], [ReplaceRules] returns an error
    whose message contains the standard output, the standard error and
    [err]; when the command succeeds it returns [nil]. *)
Theorem ReplaceRules_result (host : Host) (h : IPTablesHelper) :
  let cmd := mkCmd (restoreCommand h) ["--wait"] (GenerateInputFromRuleSet h) in
  (ReplaceRules host h).1 = [cmd] ∧
  match RunErr (host cmd) with
  | None => (ReplaceRules host h).2 = None
  | Some err =>
      ∃ msg, (ReplaceRules host h).2 = Some msg ∧
             Substring (Stdout (host cmd)) msg ∧
             Substring (Stderr (host cmd)) msg ∧
             Substring err msg
  end.
Proof.
  intros cmd. unfold ReplaceRules, runRestoreCommand. cbn [app]. fold cmd.
  destruct (RunErr (host cmd)) as [err|]; cbn [fst snd]; [|done].
  split; [done|]. eexists. split; [done|]. unfold replaceError. split; [|split].
  - apply Substring_middle.
  - rewrite (string_app_assoc _ (Stdout (host cmd))).
    rewrite (string_app_assoc _ "; stderr = ").
    apply Substring_middle.
  - rewrite (string_app_assoc _ (Stdout (host cmd))).
    rewrite (string_app_assoc _ "; stderr = ").
    rewrite (string_app_assoc _ (Stderr (host cmd))).
    rewrite (string_app_assoc _ "; error = ").
    rewrite <- (string_app_nil_r err) at 2.
    apply Substring_middle.
Qed.

End properties_iptables.

Section properties_types.
Import types scenarios.

(** The assertions of [agent_argument_map_test.go], on the model. *)
Example AgentArgumentMap_set_get_delete :
  HasKey NewAgentArgumentMap "hello" = false ∧
  Get NewAgentArgumentMap "hello" = "" ∧
  HasKey (Set_ NewAgentArgumentMap "hello" "world") "hello" = true ∧
  Get (Set_ NewAgentArgumentMap "hello" "world") "hello" = "world" ∧
  HasKey (Delete (Set_ NewAgentArgumentMap "hello" "world") "hello") "hello" = false ∧
  Get (Delete (Set_ NewAgentArgumentMap "hello" "world") "hello") "hello" = "".
Proof. repeat split; vm_compute; reflexivity. Qed.

Example AgentArgumentMap_enabled :
  IsProxyEnabled (Set_ NewAgentArgumentMap "enable-ipam" "") = false ∧
  IsIPAMEnabled (Set_ (Set_ NewAgentArgumentMap "enable-ipam" "") "enable-ipam" "true") = true ∧
  IsProxyEnabled (Set_ NewAgentArgumentMap "enable-proxy" "") = false ∧
  IsProxyEnabled (Set_ (Set_ NewAgentArgumentMap "enable-proxy" "") "enable-proxy" "true") = true.
Proof. repeat split; vm_compute; reflexivity. Qed.

Example ArgumentArray_tests :
  ArgumentArray (Set_ (Set_ NewAgentArgumentMap "enable-proxy" "false") "enable-ipam" "true")
    = ["--enable-ipam=true"; "--enable-proxy=false"] ∧
  ArgumentArray (Set_ (Set_ NewAgentArgumentMap "log-level" "3") "enable-ipam" "true")
    = ["--enable-ipam=true"; "--v=3"] ∧
  ArgumentArray
    (Set_ (Set_ (Set_ NewAgentArgumentMap "log-level" "3") "enable-ipam" "true")
       "enable-proxy" "false")
    = ["--enable-ipam=true"; "--enable-proxy=false"; "--v=3"].
Proof. repeat split; vm_compute; reflexivity. Qed.

(** C8: [ArgumentArray] renders every key other than [log-level] as
    [--<key>=<value>], in increasing byte-wise order of the keys, and then,
    when [log-level] is set, [--v=<level>] as the last element; the scenario
    map gives exactly [--enable-ipam=true; --enable-proxy=false; --v=3]. *)
Theorem ArgumentArray_order (m : gmap string string) :
  (∃ names : list string,
     Sorted String.le names ∧ NoDup names ∧
     (∀ k, k ∈ names ↔ is_Some (m !! k) ∧ k ≠ "log-level") ∧
     ArgumentArray m =
       ((λ k, "--" +:+ k +:+ "=" +:+ default "" (m !! k)) <$> names) ++
       match m !! "log-level" with
       | Some level => ["--v=" +:+ level]
       | None => []
       end) ∧
  (∀ level, m !! "log-level" = Some level → last (ArgumentArray m) = Some ("--v=" +:+ level)) ∧
  ArgumentArray scenarioArguments = ["--enable-ipam=true"; "--enable-proxy=false"; "--v=3"].
Proof.
  split; [|split].
  - exists (merge_sort String.le (elements (dom m ∖ {["log-level"]}))).
    split; [apply Sorted_merge_sort; apply _|]. split; [|split].
    + rewrite merge_sort_Permutation. apply NoDup_elements.
    + intros k. rewrite merge_sort_Permutation, elem_of_elements.
      rewrite elem_of_difference, elem_of_dom, not_elem_of_singleton. done.
    + unfold ArgumentArray, HasKey, Get. f_equal.
      destruct (m !! "log-level") as [level|] eqn:E.
      * by rewrite bool_decide_eq_true_2.
      * rewrite bool_decide_eq_false_2; [done|]. by intros [? ?].
  - intros level Hlevel. unfold ArgumentArray, HasKey, Get. rewrite Hlevel.
    rewrite bool_decide_eq_true_2 by done. by rewrite last_snoc.
  - vm_compute. reflexivity.
Qed.

(** The "argument map ordering" scenario ends with the log level. *)
Lemma ArgumentArray_order_witness :
  last (ArgumentArray scenarioArguments) = Some "--v=3".
Proof.
  destruct (ArgumentArray_order scenarioArguments) as (_ & Hlast & _).
  apply (Hlast "3"). vm_compute. reflexivity.
Defined.

(** C9: [IsIPAMEnabled] (respectively [IsProxyEnabled]) is true exactly when
    the key [enable-ipam] (respectively [enable-proxy]) is in the map with
    the value ["true"]; the values ["TRUE"] and [""] give false. *)
Theorem IsEnabled_literal_true (m : gmap string string) :
  (IsIPAMEnabled m = true ↔ m !! "enable-ipam" = Some "true") ∧
  (IsProxyEnabled m = true ↔ m !! "enable-proxy" = Some "true") ∧
  IsIPAMEnabled (Set_ m "enable-ipam" "TRUE") = false ∧
  IsIPAMEnabled (Set_ m "enable-ipam" "") = false ∧
  IsProxyEnabled (Set_ m "enable-proxy" "TRUE") = false ∧
  IsProxyEnabled (Set_ m "enable-proxy" "") = false.
Proof.
  unfold IsIPAMEnabled, IsProxyEnabled, Get, Set_.
  split; [|split]; [| |by rewrite !lookup_insert_eq].
  - rewrite String.eqb_eq. destruct (m !! "enable-ipam") as [v|]; cbn.
    + split; [by intros ->|by intros [= ->]].
    + split; [discriminate|discriminate].
  - rewrite String.eqb_eq. destruct (m !! "enable-proxy") as [v|]; cbn.
    + split; [by intros ->|by intros [= ->]].
    + split; [discriminate|discriminate].
Qed.

(** The scenario map enables IPAM and not the proxy. *)
Lemma IsEnabled_literal_true_witness :
  IsIPAMEnabled scenarioArguments = true ∧ IsProxyEnabled scenarioArguments = false.
Proof.
  destruct (IsEnabled_literal_true scenarioArguments) as ([_ Hipam] & [Hproxy _] & _).
  split.
  - apply Hipam. vm_compute. reflexivity.
  - destruct (IsProxyEnabled scenarioArguments) eqn:E; [|reflexivity].
    specialize (Hproxy eq_refl). vm_compute in Hproxy. discriminate Hproxy.
Defined.

End properties_types.

(** * Further properties of package [iptables] *)

Section iptables_tables.
Import golang iptables.

Lemma tableOf_absent (h : IPTablesHelper) (tbl : string) :
  Forall (λ r, table r ≠ tbl) (ruleSets h) → tableOf h tbl = None.
Proof.
  intros Habs. unfold tableOf, findTable. by rewrite findTable_from_absent.
Qed.

Lemma tableOf_split (h : IPTablesHelper) (tbl : string) pre rs post :
  ruleSets h = pre ++ rs :: post → Forall (λ r, table r ≠ tbl) pre → table rs = tbl →
  tableOf h tbl = Some rs.
Proof.
  intros Hs Hpre Ht. unfold tableOf, findTable.
  rewrite Hs, findTable_from_first by done. rewrite Z.add_0_l. apply index_app_len.
Qed.

Lemma tableOf_Some (h : IPTablesHelper) (tbl : string) (rs : IPTablesRuleSet) :
  tableOf h tbl = Some rs →
  ∃ pre post, ruleSets h = pre ++ rs :: post ∧ Forall (λ r, table r ≠ tbl) pre ∧ table rs = tbl.
Proof.
  intros Hrs.
  destruct (ruleSets_split (ruleSets h) tbl) as [Habs|(pre & rs' & post & Hs & Hpre & Ht)].
  - by rewrite tableOf_absent in Hrs.
  - rewrite (tableOf_split h tbl pre rs' post) in Hrs by done.
    injection Hrs as <-. by exists pre, post.
Qed.

Lemma tableOf_filter (h : IPTablesHelper) (tbl : string) :
  tableOf h tbl = head (filter (λ rs, table rs = tbl) (ruleSets h)).
Proof.
  destruct (ruleSets_split (ruleSets h) tbl) as [Habs|(pre & rs & post & Hs & Hpre & Ht)].
  - rewrite tableOf_absent by done. rewrite filter_none; [done|].
    rewrite Forall_forall in Habs. intros x Hx. by apply Habs.
  - rewrite (tableOf_split h tbl pre rs post) by done.
    rewrite Hs, filter_app, filter_cons_True by done.
    rewrite filter_none; [done|]. rewrite Forall_forall in Hpre. intros x Hx. by apply Hpre.
Qed.

Lemma tableOf_snoc (h : IPTablesHelper) (new : IPTablesRuleSet) (tbl : string) :
  Forall (λ r, table r ≠ table new) (ruleSets h) →
  tableOf (with_ruleSets h (ruleSets h ++ [new])) tbl =
    if decide (tbl = table new) then Some new else tableOf h tbl.
Proof.
  intros Habs. rewrite !tableOf_filter. cbn [ruleSets with_ruleSets].
  rewrite filter_app. destruct (decide (tbl = table new)) as [->|Hne].
  - rewrite filter_none by (rewrite Forall_forall in Habs; intros x Hx; by apply Habs).
    by rewrite filter_cons_True.
  - rewrite (filter_cons_False _ new) by congruence. by rewrite filter_nil, app_nil_r.
Qed.

Lemma tableOf_replace (h : IPTablesHelper) (tbl : string) pre rs rs' post :
  ruleSets h = pre ++ rs :: post → Forall (λ r, table r ≠ table rs) pre →
  table rs' = table rs →
  tableOf (with_ruleSets h (pre ++ rs' :: post)) tbl =
    if decide (tbl = table rs) then Some rs' else tableOf h tbl.
Proof.
  intros Hs Hpre Ht. destruct (decide (tbl = table rs)) as [->|Hne].
  - by apply (tableOf_split _ _ pre rs' post).
  - rewrite !tableOf_filter. cbn [ruleSets with_ruleSets]. rewrite Hs, !filter_app.
    rewrite (filter_cons_False _ rs') by congruence.
    by rewrite (filter_cons_False _ rs) by congruence.
Qed.

Lemma addChain_nil (c : string) : addChain c [] = [c].
Proof. reflexivity. Qed.

(** [CreateChain] and [AppendUniqueRule], table by table. *)
Lemma CreateChain_tableOf (h : IPTablesHelper) (tbl c : string) :
  ∃ h1, CreateChain h tbl c = Some h1 ∧
        protocol h1 = protocol h ∧ restoreCommand h1 = restoreCommand h ∧
        tableOf h1 tbl = Some (mkRuleSet tbl (addChain c (chainsAt h tbl)) (rulesAt h tbl)) ∧
        ∀ tbl', tbl' ≠ tbl → tableOf h1 tbl' = tableOf h tbl'.
Proof.
  unfold chainsAt, rulesAt.
  destruct (ruleSets_split (ruleSets h) tbl) as [Habs|(pre & rs & post & Hs & Hpre & Ht)].
  - rewrite CreateChain_absent by done. eexists. split; [done|].
    split; [done|]. split; [done|].
    rewrite (tableOf_absent h tbl) by done. cbn [from_option]. split.
    + rewrite tableOf_snoc by done. cbn [table]. by rewrite decide_True.
    + intros tbl' Hne. rewrite tableOf_snoc by done. cbn [table]. by rewrite decide_False.
  - rewrite (CreateChain_present h tbl c pre rs post) by done. eexists. split; [done|].
    split; [done|]. split; [done|].
    rewrite (tableOf_split h tbl pre rs post) by done. cbn [from_option]. subst tbl. split.
    + rewrite (tableOf_replace h _ pre rs _ post) by done. by rewrite decide_True.
    + intros tbl' Hne. rewrite (tableOf_replace h _ pre rs _ post) by done.
      by rewrite decide_False.
Qed.

Lemma AppendUniqueRule_tableOf (h : IPTablesHelper) (tbl c : string) (r : list string) :
  ∃ h1, AppendUniqueRule h tbl c r = Some h1 ∧
        protocol h1 = protocol h ∧ restoreCommand h1 = restoreCommand h ∧
        tableOf h1 tbl =
          Some (mkRuleSet tbl (addChain c (chainsAt h tbl)) (addRule c r (rulesAt h tbl))) ∧
        ∀ tbl', tbl' ≠ tbl → tableOf h1 tbl' = tableOf h tbl'.
Proof.
  unfold chainsAt, rulesAt.
  destruct (ruleSets_split (ruleSets h) tbl) as [Habs|(pre & rs & post & Hs & Hpre & Ht)].
  - rewrite AppendUniqueRule_absent by done. eexists. split; [done|].
    split; [done|]. split; [done|].
    rewrite (tableOf_absent h tbl) by done. cbn [from_option]. split.
    + rewrite tableOf_snoc by done. cbn [table]. by rewrite decide_True.
    + intros tbl' Hne. rewrite tableOf_snoc by done. cbn [table]. by rewrite decide_False.
  - rewrite (AppendUniqueRule_present h tbl c r pre rs post) by done. eexists. split; [done|].
    split; [done|]. split; [done|].
    rewrite (tableOf_split h tbl pre rs post) by done. cbn [from_option]. subst tbl. split.
    + rewrite (tableOf_replace h _ pre rs _ post) by done. by rewrite decide_True.
    + intros tbl' Hne. rewrite (tableOf_replace h _ pre rs _ post) by done.
      by rewrite decide_False.
Qed.

Lemma addChain_prefix (c : string) (cs : list string) : cs `prefix_of` addChain c cs.
Proof.
  unfold addChain. destruct (_ =? _); [by apply prefix_app_r|done].
Qed.

Lemma addRule_prefix (c : string) (r : list string) (rs : list IPTablesRule) :
  rs `prefix_of` addRule c r rs.
Proof.
  unfold addRule. destruct (hasRule c r rs); [done|by apply prefix_app_r].
Qed.

(** One primitive call: it never panics, it gives what it is asked for, and
    what was registered stays where it was. *)
Lemma applyOp_spec (h : IPTablesHelper) (op : Op) :
  ∃ h1, applyOp h op = Some h1 ∧ satisfied h1 op ∧
        protocol h1 = protocol h ∧ restoreCommand h1 = restoreCommand h ∧
        ∀ tbl, chainsAt h tbl `prefix_of` chainsAt h1 tbl ∧
               rulesAt h tbl `prefix_of` rulesAt h1 tbl.
Proof.
  destruct op as [tbl c|tbl c r]; cbn [applyOp satisfied].
  - destruct (CreateChain_tableOf h tbl c) as (h1 & -> & Hp & Hc & Ht & Hother).
    exists h1. split; [done|]. unfold chainsAt, rulesAt in *.
    split; [rewrite Ht; apply addChain_elem|]. split; [done|]. split; [done|].
    intros tbl'. destruct (decide (tbl' = tbl)) as [->|Hne].
    + rewrite Ht. cbn [from_option chains rules]. split; [apply addChain_prefix|done].
    + by rewrite Hother.
  - destruct (AppendUniqueRule_tableOf h tbl c r) as (h1 & -> & Hp & Hc & Ht & Hother).
    exists h1. split; [done|]. unfold chainsAt, rulesAt in *.
    split; [rewrite Ht; split; [apply addChain_elem|apply addRule_elem]|].
    split; [done|]. split; [done|].
    intros tbl'. destruct (decide (tbl' = tbl)) as [->|Hne].
    + rewrite Ht. cbn [from_option chains rules].
      split; [apply addChain_prefix|apply addRule_prefix].
    + by rewrite Hother.
Qed.

Lemma satisfied_prefix (h h1 : IPTablesHelper) (op : Op) :
  (∀ tbl, chainsAt h tbl `prefix_of` chainsAt h1 tbl ∧
          rulesAt h tbl `prefix_of` rulesAt h1 tbl) →
  satisfied h op → satisfied h1 op.
Proof.
  intros Hpre. destruct op as [tbl c|tbl c r]; cbn [satisfied].
  - intros Hc. destruct (Hpre tbl) as [[k ->] _]. apply elem_of_app. by left.
  - intros [Hc Hr]. destruct (Hpre tbl) as [[k ->] [k' ->]].
    split; apply elem_of_app; by left.
Qed.

Lemma chainsAt_elem_tableOf (h : IPTablesHelper) (tbl c : string) :
  c ∈ chainsAt h tbl → ∃ rs, tableOf h tbl = Some rs ∧ c ∈ chains rs.
Proof.
  unfold chainsAt. destruct (tableOf h tbl) as [rs|]; cbn [from_option].
  - intros Hc. by exists rs.
  - by intros ?%elem_of_nil.
Qed.

Lemma satisfied_fixed (h : IPTablesHelper) (op : Op) :
  satisfied h op → applyOp h op = Some h.
Proof.
  destruct op as [tbl c|tbl c r]; cbn [applyOp satisfied].
  - intros (rs & Hrs & Hc)%chainsAt_elem_tableOf.
    apply tableOf_Some in Hrs as (pre & post & Hs & Hpre & Ht).
    rewrite (CreateChain_present h tbl c pre rs post) by done.
    rewrite addChain_id by done. rewrite ruleSet_eta, <- Hs. by rewrite with_ruleSets_id.
  - intros [(rs & Hrs & Hc)%chainsAt_elem_tableOf Hr].
    unfold rulesAt in Hr. rewrite Hrs in Hr. cbn [from_option] in Hr.
    apply tableOf_Some in Hrs as (pre & post & Hs & Hpre & Ht).
    rewrite (AppendUniqueRule_present h tbl c r pre rs post) by done.
    rewrite addChain_id, addRule_id by done.
    rewrite ruleSet_eta, <- Hs. by rewrite with_ruleSets_id.
Qed.

Lemma run_app (ops1 ops2 : list Op) (h : IPTablesHelper) :
  run (ops1 ++ ops2) h = run ops1 h ≫= run ops2.
Proof.
  unfold run. revert h. induction ops1 as [|op ops1 IH]; intros h; [done|].
  cbn [app forEach]. destruct (applyOp h op) as [h1|]; [|done].
  cbn [mbind option_bind]. apply IH.
Qed.

Lemma run_spec (ops : list Op) (h : IPTablesHelper) :
  ∃ h1, run ops h = Some h1 ∧ Forall (satisfied h1) ops ∧
        protocol h1 = protocol h ∧ restoreCommand h1 = restoreCommand h ∧
        ∀ tbl, chainsAt h tbl `prefix_of` chainsAt h1 tbl ∧
               rulesAt h tbl `prefix_of` rulesAt h1 tbl.
Proof.
  unfold run. revert h. induction ops as [|op ops IH]; intros h.
  - exists h. split; [done|]. split; [constructor|]. by repeat split.
  - cbn [forEach].
    destruct (applyOp_spec h op) as (h1 & -> & Hsat & Hp & Hc & Hpre).
    cbn [mbind option_bind].
    destruct (IH h1) as (h2 & -> & Hall & Hp2 & Hc2 & Hpre2).
    exists h2. split; [done|]. split; [|split; [congruence|split; [congruence|]]].
    + constructor; [|done]. by apply (satisfied_prefix h1).
    + intros tbl. destruct (Hpre tbl), (Hpre2 tbl). split; by etrans.
Qed.

Lemma run_fixed (ops : list Op) (h : IPTablesHelper) :
  Forall (satisfied h) ops → run ops h = Some h.
Proof.
  unfold run. induction 1 as [|op ops Hop _ IH]; [done|].
  cbn [forEach]. rewrite satisfied_fixed by done. done.
Qed.

Lemma forEach_run {A} (body : IPTablesHelper → A → option IPTablesHelper)
    (ops : A → list Op) (l : list A) (h : IPTablesHelper) :
  (∀ h x, body h x = run (ops x) h) → forEach body l h = run (l ≫= ops) h.
Proof.
  intros Hbody. revert h. induction l as [|x l IH]; intros h; [done|].
  cbn [forEach mbind list_bind]. rewrite run_app, Hbody.
  destruct (run (ops x) h) as [h1|]; [|done]. cbn [mbind option_bind]. apply IH.
Qed.

Lemma exec_run (h : IPTablesHelper) (call : Call) : exec h call = run (opsOf call) h.
Proof.
  destruct call; cbn [exec opsOf];
    try (unfold run, CreateFabEdgePostRoutingChain, CreateFabEdgeInputChain,
           CreateFabEdgeForwardChain, CreateFabEdgeNatOutgoingChain, PreparePostRoutingChain,
           PrepareForwardChain, AddPostRoutingRuleForKubernetes, AddPostRoutingRulesForIPSet,
           AllowIPSec, AllowPostRoutingForIPSet, MasqueradePostRoutingForIPSet;
         cbn [forEach applyOp];
         repeat match goal with
         | |- context [CreateChain ?h ?t ?c] => destruct (CreateChain h t c); cbn [mbind option_bind]
         | |- context [AppendUniqueRule ?h ?t ?c ?r] =>
             destruct (AppendUniqueRule h t c r); cbn [mbind option_bind]
         end; reflexivity).
  - unfold MaintainForwardRulesForIPSet, PrepareForwardChain. rewrite run_app.
    unfold run. cbn [forEach applyOp].
    destruct (CreateChain h _ _) as [h1|]; cbn [mbind option_bind]; [|done].
    destruct (AppendUniqueRule h1 _ _ _) as [h2|]; cbn [mbind option_bind]; [|done].
    destruct (AppendUniqueRule h2 _ _ _) as [h3|]; cbn [mbind option_bind]; [|done].
    apply forEach_run. intros h' x. unfold run. cbn [forEach applyOp].
    by destruct (AppendUniqueRule h' _ _ _) as [h4|]; cbn [mbind option_bind];
      [destruct (AppendUniqueRule h4 _ _ _)|].
  - unfold MaintainForwardRulesForSubnets.
    apply forEach_run. intros h' x. unfold run. cbn [forEach applyOp].
    by destruct (AppendUniqueRule h' _ _ _) as [h4|]; cbn [mbind option_bind];
      [destruct (AppendUniqueRule h4 _ _ _)|].
  - unfold MaintainNatOutgoingRulesForSubnets.
    apply forEach_run. intros h' x. unfold run. cbn [forEach applyOp].
    destruct (AppendUniqueRule h' _ _ _) as [h4|]; cbn [mbind option_bind]; [|done].
    destruct (AppendUniqueRule h4 _ _ _) as [h5|]; cbn [mbind option_bind]; [|done].
    destruct (AppendUniqueRule h5 _ _ _) as [h6|]; cbn [mbind option_bind]; [|done].
    by destruct (AppendUniqueRule h6 _ _ _).
Qed.

End iptables_tables.

Section iptables_declared.
Import golang iptables.

Lemma addChain_NoDup (c : string) (cs : list string) : NoDup cs → NoDup (addChain c cs).
Proof.
  intros Hnd. unfold addChain. rewrite findChain_from_eqb. case_bool_decide as Hc; [|done].
  apply NoDup_app. split; [done|]. split; [|apply NoDup_singleton].
  by intros x Hx ->%list_elem_of_singleton.
Qed.

Lemma addChain_subseteq (c x : string) (cs : list string) : x ∈ cs → x ∈ addChain c cs.
Proof.
  intros Hx. destruct (addChain_prefix c cs) as [k ->]. apply elem_of_app. by left.
Qed.

Lemma chainsDeclared_snoc (h : IPTablesHelper) (rs : IPTablesRuleSet) :
  chainsDeclared h → NoDup (chains rs) → (∀ r, r ∈ rules rs → chain r ∈ chains rs) →
  chainsDeclared (with_ruleSets h (ruleSets h ++ [rs])).
Proof.
  intros Hh Hnd Hr. unfold chainsDeclared. cbn [ruleSets with_ruleSets].
  apply Forall_app. split; [done|]. by constructor.
Qed.

Lemma chainsDeclared_replace (h : IPTablesHelper) pre rs rs' post :
  chainsDeclared h → ruleSets h = pre ++ rs :: post →
  (NoDup (chains rs) → NoDup (chains rs')) →
  ((∀ r, r ∈ rules rs → chain r ∈ chains rs) → ∀ r, r ∈ rules rs' → chain r ∈ chains rs') →
  chainsDeclared (with_ruleSets h (pre ++ rs' :: post)).
Proof.
  unfold chainsDeclared. intros Hh Hs Hnd Hr. rewrite Hs in Hh.
  cbn [ruleSets with_ruleSets].
  apply Forall_app in Hh as [Hpre Hpost]. apply Forall_cons in Hpost as [[Hn Hd] Hpost].
  apply Forall_app. split; [done|]. constructor; [|done]. split; [by apply Hnd|by apply Hr].
Qed.

Lemma chainsDeclared_CreateChain (h h' : IPTablesHelper) (tbl c : string) :
  chainsDeclared h → CreateChain h tbl c = Some h' → chainsDeclared h'.
Proof.
  intros Hh. destruct (ruleSets_split (ruleSets h) tbl) as [Habs|(pre & rs & post & Hs & Hpre & Ht)].
  - rewrite CreateChain_absent by done. intros [= <-].
    apply chainsDeclared_snoc; [done|apply NoDup_singleton|].
    cbn. by intros r ?%elem_of_nil.
  - rewrite (CreateChain_present h tbl c pre rs post) by done. intros [= <-].
    apply (chainsDeclared_replace h pre rs _ post); [done..| |]; cbn [chains rules].
    + apply addChain_NoDup.
    + intros Hr r Hin. by apply addChain_subseteq, Hr.
Qed.

Lemma chainsDeclared_AppendUniqueRule (h h' : IPTablesHelper) (tbl c : string)
    (r : list string) :
  chainsDeclared h → AppendUniqueRule h tbl c r = Some h' → chainsDeclared h'.
Proof.
  intros Hh. destruct (ruleSets_split (ruleSets h) tbl) as [Habs|(pre & rs & post & Hs & Hpre & Ht)].
  - rewrite AppendUniqueRule_absent by done. intros [= <-].
    apply chainsDeclared_snoc; [done|apply NoDup_singleton|].
    cbn. intros x ->%list_elem_of_singleton. cbn. by left.
  - rewrite (AppendUniqueRule_present h tbl c r pre rs post) by done. intros [= <-].
    apply (chainsDeclared_replace h pre rs _ post); [done..| |]; cbn [chains rules].
    + apply addChain_NoDup.
    + intros Hr x [Hin| ->]%addRule_inv.
      * by apply addChain_subseteq, Hr.
      * cbn. apply addChain_elem.
Qed.

Lemma reachable_chainsDeclared (h : IPTablesHelper) : reachable h → chainsDeclared h.
Proof.
  induction 1 as [proto|h tbl c h' _ IH Hc|h tbl c r h' _ IH Ha|h _ IH].
  - constructor.
  - by eapply chainsDeclared_CreateChain.
  - by eapply chainsDeclared_AppendUniqueRule.
  - constructor.
Qed.

Lemma reachable_run (ops : list Op) (h h' : IPTablesHelper) :
  reachable h → run ops h = Some h' → reachable h'.
Proof.
  unfold run. revert h. induction ops as [|op ops IH]; intros h Hh; cbn [forEach].
  - by intros [= <-].
  - destruct (applyOp h op) as [h1|] eqn:E; cbn [mbind option_bind]; [|done].
    apply IH. destruct op; cbn [applyOp] in E.
    + by eapply reach_CreateChain.
    + by eapply reach_AppendUniqueRule.
Qed.

Lemma built_reachable (h : IPTablesHelper) : built h → reachable h.
Proof.
  induction 1 as [proto|h call h' _ IH Hexec|h _ IH].
  - apply reach_new.
  - rewrite exec_run in Hexec. by eapply reachable_run.
  - by apply reach_ClearAllRules.
Qed.

Lemma findChain_from_index (i : Z) (cs : list string) (c : string) :
  c ∈ cs → ∃ k : nat, findChain_from i cs c = i + Z.of_nat k ∧ cs !! k = Some c.
Proof.
  revert i. induction cs as [|e cs IH]; intros i Hc; [by apply elem_of_nil in Hc|].
  cbn [findChain_from]. destruct (String.eqb_spec c e) as [->|Hne].
  - exists 0%nat. split; [lia|done].
  - apply elem_of_cons in Hc as [?|Hc]; [done|].
    destruct (IH (i + 1) Hc) as (k & Hk & Hlook). exists (S k). split; [lia|done].
Qed.

Lemma index_lookup {A} (l : list A) (k : nat) : index l (Z.of_nat k) = l !! k.
Proof.
  unfold index. destruct (Z.ltb_spec (Z.of_nat k) 0); [lia|]. by rewrite Nat2Z.id.
Qed.

Lemma index_None {A} (l : list A) (i : Z) : index l i = None ↔ i < 0 ∨ len l ≤ i.
Proof.
  unfold index, len. destruct (Z.ltb_spec i 0) as [Hneg|Hpos].
  - split; [by left|done].
  - rewrite lookup_ge_None. split; [intros H; right; lia|intros [?|?]; lia].
Qed.

End iptables_declared.

Section iptables_order.
Import golang iptables.

Lemma applyOp_rulesAt (h h1 : IPTablesHelper) (op : Op) (tbl : string) :
  applyOp h op = Some h1 → rulesAt h1 tbl = rulesAfter tbl (rulesAt h tbl) op.
Proof.
  destruct op as [t c|t c r]; cbn [applyOp rulesAfter].
  - destruct (CreateChain_tableOf h t c) as (h' & -> & _ & _ & Ht & Hother).
    intros [= <-]. unfold rulesAt in *. destruct (decide (tbl = t)) as [->|Hne].
    + by rewrite Ht.
    + by rewrite Hother.
  - destruct (AppendUniqueRule_tableOf h t c r) as (h' & -> & _ & _ & Ht & Hother).
    intros [= <-]. unfold rulesAt in *. destruct (decide (t = tbl)) as [->|Hne].
    + by rewrite Ht.
    + by rewrite Hother.
Qed.

Lemma run_rulesAt (ops : list Op) (h h1 : IPTablesHelper) (tbl : string) :
  run ops h = Some h1 → rulesAt h1 tbl = fold_left (rulesAfter tbl) ops (rulesAt h tbl).
Proof.
  unfold run. revert h. induction ops as [|op ops IH]; intros h; cbn [forEach fold_left].
  - by intros [= <-].
  - destruct (applyOp h op) as [h'|] eqn:E; cbn [mbind option_bind]; [|done].
    intros Hrun. rewrite (IH h' Hrun). by rewrite (applyOp_rulesAt h h' op tbl E).
Qed.

Lemma precedes_prefix {A} (x y : A) (l l' : list A) :
  l `prefix_of` l' → precedes x y l → precedes x y l'.
Proof.
  intros [k ->] (l1 & l2 & -> & Hx & Hy). exists l1, (l2 ++ k).
  split; [by rewrite <- app_assoc|done].
Qed.

Lemma rulesAfter_prefix (tbl : string) (l : list IPTablesRule) (op : Op) :
  l `prefix_of` rulesAfter tbl l op.
Proof.
  destruct op as [t c|t c r]; cbn [rulesAfter]; [done|].
  destruct (decide (t = tbl)); [apply addRule_prefix|done].
Qed.

Lemma fold_rulesAfter_prefix (tbl : string) (ops : list Op) (l : list IPTablesRule) :
  l `prefix_of` fold_left (rulesAfter tbl) ops l.
Proof.
  revert l. induction ops as [|op ops IH]; intros l; cbn [fold_left]; [done|].
  etrans; [apply rulesAfter_prefix|apply IH].
Qed.

Lemma natPending_addRule (subnet ipsetName c : string) (r : list string)
    (l : list IPTablesRule) :
  mkRule c r ≠ natMasquerade subnet →
  natPending subnet ipsetName l → natPending subnet ipsetName (addRule c r l).
Proof.
  intros Hne [Hnot|[H1 H2]].
  - left. intros [?|?]%addRule_inv; [done|]. congruence.
  - right. split; eapply precedes_prefix; eauto using addRule_prefix.
Qed.

Lemma addRule_masquerade (subnet ipsetName : string) (l : list IPTablesRule) :
  natPending subnet ipsetName l →
  natReturnToSet subnet ipsetName ∈ l → natReturnInternal subnet ∈ l →
  precedes (natReturnToSet subnet ipsetName) (natMasquerade subnet)
    (addRule ChainFabEdgeNatOutgoing ["-s"; subnet; "-j"; ChainMasquerade] l) ∧
  precedes (natReturnInternal subnet) (natMasquerade subnet)
    (addRule ChainFabEdgeNatOutgoing ["-s"; subnet; "-j"; ChainMasquerade] l).
Proof.
  intros Hpend H1 H2. unfold addRule.
  destruct (hasRule _ _ l) eqn:E.
  - apply hasRule_elem in E. destruct Hpend as [Hnot|?]; [|done]. by destruct Hnot.
  - assert (natMasquerade subnet ∉ l) as Hnot.
    { intros Hin. apply hasRule_elem in Hin. congruence. }
    split; exists l, []; by repeat split.
Qed.

Lemma natBody_same (subnet ipsetName : string) (l : list IPTablesRule) :
  natPending subnet ipsetName l →
  let l' := fold_left (rulesAfter TableNat)
              (opsOf (CallMaintainNatOutgoingRulesForSubnets [subnet] ipsetName)) l in
  precedes (natReturnToSet subnet ipsetName) (natMasquerade subnet) l' ∧
  precedes (natReturnInternal subnet) (natMasquerade subnet) l'.
Proof.
  intros Hpend. cbn [opsOf mbind list_bind app fold_left rulesAfter].
  rewrite !decide_True by done.
  set (l1 := addRule ChainFabEdgeNatOutgoing _ l).
  set (l2 := addRule ChainFabEdgeNatOutgoing _ l1).
  assert (natPending subnet ipsetName l2) as Hpend2.
  { apply natPending_addRule; [discriminate|].
    apply natPending_addRule; [discriminate|done]. }
  assert (natReturnToSet subnet ipsetName ∈ l2) as H1.
  { destruct (addRule_prefix ChainFabEdgeNatOutgoing
                ["-s"; subnet; "-d"; subnet; "-j"; "RETURN"] l1) as [k Hk].
    fold l2 in Hk. rewrite Hk. apply elem_of_app. left. apply addRule_elem. }
  assert (natReturnInternal subnet ∈ l2) as H2 by apply addRule_elem.
  destruct (addRule_masquerade subnet ipsetName l2 Hpend2 H1 H2) as [Ha Hb].
  split; eapply precedes_prefix; eauto using addRule_prefix.
Qed.

Lemma natBody_other (subnet other ipsetName : string) (l : list IPTablesRule) :
  other ≠ subnet → natPending subnet ipsetName l →
  natPending subnet ipsetName
    (fold_left (rulesAfter TableNat)
       (opsOf (CallMaintainNatOutgoingRulesForSubnets [other] ipsetName)) l).
Proof.
  intros Hne Hpend. cbn [opsOf mbind list_bind app fold_left rulesAfter].
  rewrite !decide_True by done.
  apply natPending_addRule; [discriminate|].
  apply natPending_addRule; [unfold natMasquerade; congruence|].
  apply natPending_addRule; [discriminate|].
  apply natPending_addRule; [discriminate|done].
Qed.

Lemma natOps_cons (s : string) (subnets : list string) (ipsetName : string) :
  opsOf (CallMaintainNatOutgoingRulesForSubnets (s :: subnets) ipsetName) =
  opsOf (CallMaintainNatOutgoingRulesForSubnets [s] ipsetName) ++
  opsOf (CallMaintainNatOutgoingRulesForSubnets subnets ipsetName).
Proof. cbn [opsOf mbind list_bind]. by rewrite app_nil_r. Qed.

Lemma natLoop_order (subnets : list string) (subnet ipsetName : string)
    (l : list IPTablesRule) :
  subnet ∈ subnets → natPending subnet ipsetName l →
  let l' := fold_left (rulesAfter TableNat)
              (opsOf (CallMaintainNatOutgoingRulesForSubnets subnets ipsetName)) l in
  precedes (natReturnToSet subnet ipsetName) (natMasquerade subnet) l' ∧
  precedes (natReturnInternal subnet) (natMasquerade subnet) l'.
Proof.
  revert l. induction subnets as [|s subnets IH]; intros l Hin Hpend;
    [by apply elem_of_nil in Hin|].
  intros l'. subst l'. rewrite natOps_cons, fold_left_app.
  destruct (decide (s = subnet)) as [->|Hne].
  - destruct (natBody_same subnet ipsetName l Hpend) as [Ha Hb].
    split; eapply precedes_prefix; eauto using fold_rulesAfter_prefix.
  - apply elem_of_cons in Hin as [?|Hin]; [done|].
    apply IH; [done|]. by apply natBody_other.
Qed.

End iptables_order.

Section properties_iptables_more.
Import golang iptables scenarios.

(** X1: [findTable] answers [-1] exactly when no rule set has the table;
    otherwise it answers an index within bounds, the index of the first rule
    set of that table. *)
Theorem findTable_first_match (h : IPTablesHelper) (tbl : string) :
  (findTable h tbl = -1 ∧ ∀ rs, rs ∈ ruleSets h → table rs ≠ tbl) ∨
  (∃ rs, 0 ≤ findTable h tbl < len (ruleSets h) ∧
         index (ruleSets h) (findTable h tbl) = Some rs ∧ table rs = tbl ∧
         ∀ j rs', 0 ≤ j < findTable h tbl → index (ruleSets h) j = Some rs' →
                  table rs' ≠ tbl).
Proof.
  destruct (ruleSets_split (ruleSets h) tbl) as [Habs|(pre & rs & post & Hs & Hpre & Ht)].
  - left. split; [unfold findTable; by apply findTable_from_absent|].
    rewrite Forall_forall in Habs. intros rs Hrs. by apply Habs.
  - right. exists rs.
    assert (findTable h tbl = len pre) as ->.
    { unfold findTable. rewrite Hs, findTable_from_first by done. lia. }
    rewrite Hs. split; [|split; [apply index_app_len|split; [done|]]].
    + unfold len. rewrite length_app. cbn [length]. lia.
    + intros j rs' Hj Hidx. unfold index, len in *.
      destruct (Z.ltb_spec j 0); [lia|].
      rewrite lookup_app_l in Hidx by lia.
      rewrite Forall_forall in Hpre. apply Hpre. by eapply list_elem_of_lookup_2.
Qed.

(** X2: [findChain] panics exactly when the table index is out of range;
    within range it answers [-1] exactly when the chain is not registered in
    that rule set, and otherwise an index at which the chain is. *)
Theorem findChain_bounds (h : IPTablesHelper) (tableIndex : Z) (c : string) :
  (findChain h tableIndex c = None ↔ tableIndex < 0 ∨ len (ruleSets h) ≤ tableIndex) ∧
  (∀ rs, index (ruleSets h) tableIndex = Some rs →
         ∃ k, findChain h tableIndex c = Some k ∧
              (k = -1 ↔ c ∉ chains rs) ∧
              (k ≠ -1 → index (chains rs) k = Some c)).
Proof.
  split.
  - rewrite <- index_None. unfold findChain.
    destruct (index (ruleSets h) tableIndex); cbn [mbind option_bind]; by split.
  - intros rs Hrs. unfold findChain. rewrite Hrs. cbn [mbind option_bind].
    eexists. split; [done|]. destruct (decide (c ∈ chains rs)) as [Hin|Hnin].
    + destruct (findChain_from_index 0 (chains rs) c Hin) as (k & -> & Hk).
      split; [split; [lia|done]|]. intros _. rewrite Z.add_0_l. by rewrite index_lookup.
    + rewrite findChain_from_absent by done. by split.
Qed.

(** X3: [rulesEqual] is true exactly for equal argument vectors: same length
    and the same string at every position. *)
Theorem rulesEqual_decides (one other : list string) :
  rulesEqual one other = true ↔ one = other.
Proof. apply rulesEqual_eq. Qed.

(** X4: [CreateChain] never panics and registers the chain in the table, so
    that the chain is rendered even when no rule is appended to it; it
    leaves the rules of every table as they were, and a second call with the
    same arguments changes nothing. *)
Theorem CreateChain_registers (h : IPTablesHelper) (tbl c : string) :
  ∃ h1, CreateChain h tbl c = Some h1 ∧
        c ∈ chainsAt h1 tbl ∧
        chainLine tbl c ∈ (ruleSets h1 ≫= tableLines) ∧
        (∀ tbl', rulesAt h1 tbl' = rulesAt h tbl') ∧
        CreateChain h1 tbl c = Some h1.
Proof.
  destruct (applyOp_spec h (OpCreate tbl c)) as (h1 & Hh1 & Hsat & _ & _ & _).
  cbn [applyOp satisfied] in Hh1, Hsat. exists h1. split; [done|]. split; [done|].
  split; [|split].
  - apply chainsAt_elem_tableOf in Hsat as (rs & Hrs & Hc).
    apply tableOf_Some in Hrs as (pre & post & Hs & _ & Ht).
    apply list_elem_of_bind. exists rs. split.
    + unfold tableLines. right. apply elem_of_app. left.
      rewrite Ht. apply list_elem_of_fmap. by exists c.
    + rewrite Hs. apply elem_of_app. right. by left.
  - intros tbl'. by rewrite (applyOp_rulesAt h h1 (OpCreate tbl c) tbl' Hh1).
  - by apply (satisfied_fixed h1 (OpCreate tbl c)).
Qed.

(** X5: [AppendUniqueRule] never panics. A rule that is already registered
    in the chain of the table leaves the rules as they are; a new one goes
    after all the rules of the table, which keep their order; the chain is
    registered; the rule sets of the other tables are untouched. *)
Theorem AppendUniqueRule_appends_last (h : IPTablesHelper) (tbl c : string) (r : list string) :
  ∃ h1, AppendUniqueRule h tbl c r = Some h1 ∧
        rulesAt h1 tbl =
          (if bool_decide (mkRule c r ∈ rulesAt h tbl) then rulesAt h tbl
           else rulesAt h tbl ++ [mkRule c r]) ∧
        c ∈ chainsAt h1 tbl ∧
        chainsAt h tbl `prefix_of` chainsAt h1 tbl ∧
        (∀ tbl', tbl' ≠ tbl → tableOf h1 tbl' = tableOf h tbl').
Proof.
  destruct (AppendUniqueRule_tableOf h tbl c r) as (h1 & Hh1 & _ & _ & Ht & Hother).
  exists h1. split; [done|]. unfold rulesAt, chainsAt in *. rewrite Ht.
  cbn [from_option rules chains]. split; [|split; [apply addChain_elem|split; [|done]]].
  - unfold addRule. destruct (hasRule c r _) eqn:E.
    + apply hasRule_elem in E. by rewrite bool_decide_eq_true_2.
    + rewrite bool_decide_eq_false_2; [done|]. intros Hin%hasRule_elem. congruence.
  - apply addChain_prefix.
Qed.

(** X6: in every state the exported functions build from a new helper, a
    table has one rule set, no chain and no rule is registered twice in it,
    and every rule sits in a registered chain: the line that declares the
    chain of a rule is among the rendered lines of its table. *)
Theorem built_consistent (h : IPTablesHelper) :
  built h →
  NoDup (table <$> ruleSets h) ∧
  ∀ rs, rs ∈ ruleSets h →
        NoDup (chains rs) ∧ NoDup (rules rs) ∧
        ∀ r, r ∈ rules rs →
             chain r ∈ chains rs ∧ chainLine (table rs) (chain r) ∈ tableLines rs.
Proof.
  intros Hreach%built_reachable.
  destruct (reachable_wellFormed h Hreach) as [Htables Hrules].
  pose proof (reachable_chainsDeclared h Hreach) as Hdecl.
  split; [done|]. intros rs Hrs.
  rewrite Forall_forall in Hrules. unfold chainsDeclared in Hdecl.
  rewrite Forall_forall in Hdecl. destruct (Hdecl rs Hrs) as [Hnd Hin].
  split; [done|]. split; [by apply Hrules|].
  intros r Hr. split; [by apply Hin|].
  unfold tableLines. right. apply elem_of_app. left.
  apply list_elem_of_fmap. exists (chain r). split; [done|by apply Hin].
Qed.

Lemma exec_total (h : IPTablesHelper) (call : Call) : ∃ h1, exec h call = Some h1.
Proof.
  rewrite exec_run. destruct (run_spec (opsOf call) h) as (h1 & Hrun & _). by exists h1.
Qed.

Lemma filledHelper_built : built filledHelper.
Proof.
  apply (built_exec helperForward
           (CallMaintainNatOutgoingRulesForSubnets podSubnets peerSet)); [|by vm_compute].
  apply (built_exec helperIPSec (CallMaintainForwardRulesForIPSet [peerSet]));
    [|by vm_compute].
  apply (built_exec NewIPTablesHelper CallAllowIPSec); [apply built_new|by vm_compute].
Qed.

(** The invariant on a helper filled by three of the exported functions. *)
Lemma built_consistent_witness :
  length (ruleSets filledHelper) = 2%nat ∧
  NoDup (table <$> ruleSets filledHelper) ∧
  ∀ rs, rs ∈ ruleSets filledHelper →
        NoDup (chains rs) ∧ NoDup (rules rs) ∧
        ∀ r, r ∈ rules rs →
             chain r ∈ chains rs ∧ chainLine (table rs) (chain r) ∈ tableLines rs.
Proof.
  split; [by vm_compute|]. apply (built_consistent filledHelper filledHelper_built).
Defined.

(** X7: every exported function that fills the accumulator returns without
    a panic, whatever the accumulator and its arguments, and is idempotent:
    a second call with the same arguments leaves the accumulator as the
    first call left it. *)
Theorem exec_idempotent (h : IPTablesHelper) (call : Call) :
  ∃ h1, exec h call = Some h1 ∧ exec h1 call = Some h1.
Proof.
  rewrite exec_run. destruct (run_spec (opsOf call) h) as (h1 & Hrun & Hsat & _).
  exists h1. split; [done|]. rewrite exec_run. by apply run_fixed.
Qed.

(** X8: no exported function that fills the accumulator removes or moves
    what is registered: it keeps the protocol and the restore command, and
    in every table the chains and the rules registered before the call are
    a prefix of those registered after it. *)
Theorem exec_only_appends (h : IPTablesHelper) (call : Call) :
  ∃ h1, exec h call = Some h1 ∧
        protocol h1 = protocol h ∧ restoreCommand h1 = restoreCommand h ∧
        ∀ tbl, chainsAt h tbl `prefix_of` chainsAt h1 tbl ∧
               rulesAt h tbl `prefix_of` rulesAt h1 tbl.
Proof.
  rewrite exec_run. destruct (run_spec (opsOf call) h) as (h1 & Hrun & _ & Hp & Hc & Hpre).
  by exists h1.
Qed.

(** X9: when an exported function returns, every chain it creates is
    registered in its table and every rule it appends is registered, in a
    registered chain of its table, whether this call added it or an earlier
    one had. *)
Theorem exec_registers (h : IPTablesHelper) (call : Call) :
  ∃ h1, exec h call = Some h1 ∧
        ∀ op, op ∈ opsOf call →
              match op with
              | OpCreate tbl c => c ∈ chainsAt h1 tbl
              | OpAppend tbl c r => c ∈ chainsAt h1 tbl ∧ mkRule c r ∈ rulesAt h1 tbl
              end.
Proof.
  rewrite exec_run. destruct (run_spec (opsOf call) h) as (h1 & Hrun & Hsat & _).
  exists h1. split; [done|]. rewrite Forall_forall in Hsat.
  intros op Hop. specialize (Hsat op Hop). by destruct op.
Qed.

(** X10: [MaintainNatOutgoingRulesForSubnets] keeps the exemptions ahead of
    the masquerade: for a subnet of the list whose masquerade rule is not
    registered yet, the rules of the nat table end up with the RETURN rule
    for the address set and the RETURN rule for the subnet itself before the
    first MASQUERADE rule of that subnet. *)
Theorem MaintainNatOutgoingRules_order (h : IPTablesHelper) (subnets : list string)
    (ipsetName subnet : string) :
  subnet ∈ subnets →
  natMasquerade subnet ∉ rulesAt h TableNat →
  ∃ h1, MaintainNatOutgoingRulesForSubnets h subnets ipsetName = Some h1 ∧
        precedes (natReturnToSet subnet ipsetName) (natMasquerade subnet) (rulesAt h1 TableNat) ∧
        precedes (natReturnInternal subnet) (natMasquerade subnet) (rulesAt h1 TableNat).
Proof.
  intros Hin Hnot.
  destruct (exec_total h (CallMaintainNatOutgoingRulesForSubnets subnets ipsetName))
    as [h1 Hexec].
  exists h1. split; [done|]. rewrite exec_run in Hexec.
  rewrite (run_rulesAt _ h h1 TableNat Hexec).
  apply natLoop_order; [done|by left].
Qed.

(** Two pod subnets on a new helper: the exemptions of the second subnet come
    before its masquerade rule. *)
Lemma MaintainNatOutgoingRules_order_witness :
  ∃ h1, MaintainNatOutgoingRulesForSubnets NewIPTablesHelper podSubnets peerSet = Some h1 ∧
        precedes (natReturnToSet "10.244.2.0/24" peerSet) (natMasquerade "10.244.2.0/24")
          (rulesAt h1 TableNat) ∧
        precedes (natReturnInternal "10.244.2.0/24") (natMasquerade "10.244.2.0/24")
          (rulesAt h1 TableNat).
Proof.
  apply (MaintainNatOutgoingRules_order NewIPTablesHelper podSubnets peerSet "10.244.2.0/24").
  - unfold podSubnets. right. left.
  - vm_compute. by intros ?%elem_of_nil.
Defined.

End properties_iptables_more.

(** * Further properties of package [connector] *)

Section connector_more.
Import connector.

Lemma rebuild_nodeCache (ctl : controller) :
  nodeCache (rebuildConnectorEndpoint ctl) = nodeCache ctl.
Proof. unfold rebuildConnectorEndpoint. by rewrite rebuild_fold. Qed.

Lemma rebuild_nodeNameSet (ctl : controller) :
  nodeNameSet (rebuildConnectorEndpoint ctl) = nodeNameSet ctl.
Proof. unfold rebuildConnectorEndpoint. by rewrite rebuild_fold. Qed.

Lemma rebuild_eq (ctl : controller) :
  rebuildConnectorEndpoint ctl =
    with_connectorEndpoint ctl (connectorEndpoint (rebuildConnectorEndpoint ctl)).
Proof. unfold rebuildConnectorEndpoint. by rewrite rebuild_fold. Qed.

Lemma rebuild_same (ctl ctl' : controller) :
  connectorID ctl' = connectorID ctl → connectorName ctl' = connectorName ctl →
  connectorPublicAddress ctl' = connectorPublicAddress ctl →
  providedSubnets ctl' = providedSubnets ctl →
  nodeNameSet ctl' = nodeNameSet ctl → nodeCache ctl' = nodeCache ctl →
  connectorEndpoint (rebuildConnectorEndpoint ctl')
    = connectorEndpoint (rebuildConnectorEndpoint ctl).
Proof.
  intros Hid Hname Haddr Hprov Hset Hcache. rewrite !rebuild_endpoint.
  unfold cachedNodes. by rewrite Hid, Hname, Haddr, Hprov, Hset, Hcache.
Qed.

Lemma rebuild_idempotent (ctl : controller) :
  rebuildConnectorEndpoint (rebuildConnectorEndpoint ctl) = rebuildConnectorEndpoint ctl.
Proof.
  assert (connectorEndpoint (rebuildConnectorEndpoint (rebuildConnectorEndpoint ctl))
          = connectorEndpoint (rebuildConnectorEndpoint ctl)) as Hsame.
  { apply rebuild_same; unfold rebuildConnectorEndpoint; by rewrite rebuild_fold. }
  rewrite (rebuild_eq (rebuildConnectorEndpoint ctl)), Hsame.
  pose proof (rebuild_eq ctl) as Heq.
  set (E := connectorEndpoint (rebuildConnectorEndpoint ctl)) in *.
  rewrite Heq. reflexivity.
Qed.

Lemma addNode_cacheable (ctl : controller) (node : corev1.Node) (rebuild : bool) :
  cacheable node → corev1.Name node ∉ nodeNameSet ctl →
  addNode ctl node rebuild =
    let ctl' := with_nodes ctl (stringset.Add (nodeNameSet ctl) (corev1.Name node))
                  (<[corev1.Name node := entryOf ctl node]> (nodeCache ctl)) in
    if rebuild then rebuildConnectorEndpoint ctl' else ctl'.
Proof.
  intros [Hip Hpod] Hnew. unfold addNode, entryOf.
  destruct (nodeutil.GetIP node) as [|a ip] eqn:Eip; [done|].
  destruct (nodeutil.GetPodCIDRs node) as [|p pods] eqn:Epod; [done|].
  cbn [String.length length Nat.eqb orb].
  unfold stringset.Contains. rewrite bool_decide_eq_false_2 by done.
  by destruct (collectPodCIDRs ctl).
Qed.

Lemma addNode_skipped (ctl : controller) (node : corev1.Node) (rebuild : bool) :
  ¬ cacheable node → addNode ctl node rebuild = ctl.
Proof.
  intros Hnot. unfold addNode.
  destruct (nodeutil.GetIP node) as [|a ip] eqn:Eip; [done|].
  destruct (nodeutil.GetPodCIDRs node) as [|p pods] eqn:Epod; [done|].
  destruct Hnot. unfold cacheable. by rewrite Eip, Epod.
Qed.

Lemma addNode_present (ctl : controller) (node : corev1.Node) (rebuild : bool) :
  corev1.Name node ∈ nodeNameSet ctl → addNode ctl node rebuild = ctl.
Proof.
  intros Hin. unfold addNode. destruct (_ || _); [done|].
  unfold stringset.Contains. by rewrite bool_decide_eq_true_2.
Qed.

Lemma reachable_fold_addNode (cnf : Config) (items : list corev1.Node) (ctl : controller) :
  reachable cnf ctl →
  reachable cnf (fold_left (λ ctl node,
                   if nodeutil.IsEdgeNode node then ctl else addNode ctl node false) items ctl).
Proof.
  revert ctl. induction items as [|x items IH]; intros ctl Hctl; [done|].
  cbn [fold_left]. apply IH. destruct (nodeutil.IsEdgeNode x); [done|].
  by apply reach_addNode.
Qed.

Lemma running_reachable (cnf : Config) (ctl : controller) : running cnf ctl → reachable cnf ctl.
Proof.
  induction 1 as [items|cl fault ctl request _ IH].
  - cbn [initializeConnectorEndpoint fst]. apply reach_rebuild, reachable_fold_addNode.
    apply reach_newController.
  - unfold onNodeRequest. destruct (client.GetNode cl fault request) as [err|node].
    + destruct (client.IsNotFound (Some err)); [by apply reach_removeNode|done].
    + destruct (corev1.DeletionTimestamp node); [by apply reach_removeNode|].
      by apply reach_addNode.
Qed.

Lemma running_in_sync (cnf : Config) (ctl : controller) :
  running cnf ctl →
  connectorEndpoint ctl = connectorEndpoint (rebuildConnectorEndpoint ctl).
Proof.
  induction 1 as [items|cl fault ctl request _ IH].
  - cbn [initializeConnectorEndpoint fst]. by rewrite rebuild_idempotent.
  - unfold onNodeRequest. destruct (client.GetNode cl fault request) as [err|node].
    + destruct (client.IsNotFound (Some err)); cbn [fst]; [|done].
      unfold removeNode. by rewrite rebuild_idempotent.
    + destruct (corev1.DeletionTimestamp node); cbn [fst].
      * unfold removeNode. by rewrite rebuild_idempotent.
      * destruct (decide (cacheable node)) as [Hc|Hc]; [|by rewrite addNode_skipped].
        destruct (decide (corev1.Name node ∈ nodeNameSet ctl)) as [Hin|Hnin];
          [by rewrite addNode_present|].
        rewrite addNode_cacheable by done. cbn zeta. by rewrite rebuild_idempotent.
Qed.

(** The nodes of a list that [initializeConnectorEndpoint] caches under a
    name: not an edge node, with IP and pod CIDRs. *)
Lemma fold_addNode_cache (cnf : Config) (items : list corev1.Node) (ctl : controller)
    (name : string) :
  invariant cnf ctl →
  nodeCache (fold_left (λ ctl node,
               if nodeutil.IsEdgeNode node then ctl else addNode ctl node false) items ctl)
    !! name =
  match nodeCache ctl !! name with
  | Some e => Some e
  | None => entryOf ctl <$>
              head (filter (λ node, nodeutil.IsEdgeNode node = false ∧ cacheable node ∧
                                    corev1.Name node = name) items)
  end.
Proof.
  revert ctl. induction items as [|x items IH]; intros ctl Hinv.
  - cbn. by destruct (nodeCache ctl !! name).
  - cbn [fold_left]. rewrite filter_cons.
    destruct (nodeutil.IsEdgeNode x) eqn:Hedge.
    { rewrite IH by done. rewrite decide_False; [done|]. by intros [? _]. }
    destruct (decide (cacheable x)) as [Hc|Hc].
    2:{ rewrite addNode_skipped by done. rewrite IH by done.
        rewrite decide_False; [done|]. by intros (_ & ? & _). }
    destruct (decide (corev1.Name x ∈ nodeNameSet ctl)) as [Hin|Hnin].
    { rewrite addNode_present by done. rewrite IH by done.
      destruct (nodeCache ctl !! name) as [e|] eqn:E; [done|].
      rewrite decide_False; [done|]. intros (_ & _ & Hname).
      rewrite (inv_names _ _ Hinv), Hname in Hin.
      apply elem_of_dom in Hin as [? ?]. congruence. }
    rewrite IH by (by apply invariant_addNode).
    rewrite addNode_cacheable by done. cbn zeta. cbn [nodeCache with_nodes].
    destruct (decide (corev1.Name x = name)) as [Hname|Hname].
    + rewrite Hname, lookup_insert_eq.
      rewrite (inv_names _ _ Hinv), Hname in Hnin.
      apply not_elem_of_dom in Hnin. rewrite Hnin.
      rewrite decide_True by done. done.
    + rewrite lookup_insert_ne by done.
      rewrite decide_False by (by intros (_ & _ & ?)).
      destruct (nodeCache ctl !! name); [done|]. done.
Qed.

End connector_more.

Section properties_connector_more.
Import connector scenarios.

(** X11: adding a node that has an IP and pod CIDRs and is not cached yet
    caches its entry under its name and leaves the other entries alone, and
    removing it again gives back the cache, the name set and the connector
    endpoint of the controller without it. *)
Theorem removeNode_addNode (cnf : Config) (ctl : controller) (node : corev1.Node)
    (rebuild : bool) :
  reachable cnf ctl → cacheable node → nodeCache ctl !! corev1.Name node = None →
  let added := addNode ctl node rebuild in
  nodeCache added !! corev1.Name node = Some (entryOf ctl node) ∧
  corev1.Name node ∈ nodeNameSet added ∧
  (∀ n, n ≠ corev1.Name node → nodeCache added !! n = nodeCache ctl !! n) ∧
  nodeCache (removeNode added (corev1.Name node)) = nodeCache ctl ∧
  nodeNameSet (removeNode added (corev1.Name node)) = nodeNameSet ctl ∧
  connectorEndpoint (removeNode added (corev1.Name node))
    = connectorEndpoint (rebuildConnectorEndpoint ctl).
Proof.
  intros Hreach Hc Hnone added. pose proof (reachable_invariant cnf ctl Hreach) as Hinv.
  assert (corev1.Name node ∉ nodeNameSet ctl) as Hnew.
  { rewrite (inv_names _ _ Hinv). by apply not_elem_of_dom. }
  set (ctl' := with_nodes ctl (stringset.Add (nodeNameSet ctl) (corev1.Name node))
                 (<[corev1.Name node := entryOf ctl node]> (nodeCache ctl))).
  assert (nodeCache added = nodeCache ctl' ∧ nodeNameSet added = nodeNameSet ctl' ∧
          connectorID added = connectorID ctl ∧ connectorName added = connectorName ctl ∧
          connectorPublicAddress added = connectorPublicAddress ctl ∧
          providedSubnets added = providedSubnets ctl)
    as (Hcache & Hset & Hid & Hname & Haddr & Hprov).
  { unfold added. rewrite addNode_cacheable by done. cbn zeta. fold ctl'.
    destruct rebuild; [|done].
    rewrite rebuild_nodeCache, rebuild_nodeNameSet.
    unfold rebuildConnectorEndpoint. by rewrite rebuild_fold. }
  assert (nodeCache (removeNode added (corev1.Name node)) = nodeCache ctl) as Hback.
  { unfold removeNode. rewrite rebuild_nodeCache. cbn [nodeCache with_nodes].
    rewrite Hcache. cbn [ctl' nodeCache with_nodes].
    rewrite delete_insert_eq. by apply delete_id. }
  assert (nodeNameSet (removeNode added (corev1.Name node)) = nodeNameSet ctl) as Hnames.
  { unfold removeNode. rewrite rebuild_nodeNameSet. cbn [nodeNameSet with_nodes].
    rewrite Hset. cbn [ctl' nodeNameSet with_nodes].
    unfold stringset.Remove, stringset.Add.
    apply set_eq. intros x. rewrite elem_of_difference, elem_of_union, !elem_of_singleton.
    split; [by intros [[->|?] ?]|]. intros Hx. split; [by right|by intros ->]. }
  rewrite Hcache. cbn [ctl' nodeCache with_nodes]. split; [apply lookup_insert_eq|].
  split.
  { rewrite Hset. cbn [ctl' nodeNameSet with_nodes]. unfold stringset.Add.
    apply elem_of_union. left. by apply elem_of_singleton. }
  split; [intros n Hn; by rewrite lookup_insert_ne|].
  split; [done|]. split; [done|].
  unfold removeNode in *. rewrite rebuild_nodeCache in Hback.
  rewrite rebuild_nodeNameSet in Hnames. by apply rebuild_same.
Qed.

(** [n2] joins the controller that caches [n1] and leaves it again. *)
Lemma removeNode_addNode_witness :
  nodeCache (addNode oneNode node2 true) !! "n2"
    = Some (mkNode "n2" "10.0.0.2" ["10.244.2.0/24"]) ∧
  nodeCache (removeNode (addNode oneNode node2 true) "n2") = nodeCache oneNode ∧
  connectorEndpoint (removeNode (addNode oneNode node2 true) "n2")
    = connectorEndpoint (rebuildConnectorEndpoint oneNode).
Proof.
  destruct (removeNode_addNode selfConfig oneNode node2 true oneNode_reachable)
    as (Hadd & _ & _ & Hcache & _ & Hep).
  - split; by vm_compute.
  - by vm_compute.
  - split; [exact Hadd|]. split; [exact Hcache|exact Hep].
Defined.

(** X12: [removeNode] forgets the node and nothing else: the name is in
    neither the name set nor the cache afterwards, the other names and
    entries are kept, and removing the same name again changes nothing. *)
Theorem removeNode_only_that_node (ctl : controller) (nodeName : string) :
  nodeCache (removeNode ctl nodeName) !! nodeName = None ∧
  (nodeName ∉ nodeNameSet (removeNode ctl nodeName)) ∧
  (∀ n, n ≠ nodeName →
        nodeCache (removeNode ctl nodeName) !! n = nodeCache ctl !! n ∧
        (n ∈ nodeNameSet (removeNode ctl nodeName) ↔ n ∈ nodeNameSet ctl)) ∧
  removeNode (removeNode ctl nodeName) nodeName = removeNode ctl nodeName.
Proof.
  unfold removeNode at 1 2 3 4. rewrite rebuild_nodeCache, rebuild_nodeNameSet.
  cbn [nodeCache nodeNameSet with_nodes]. unfold stringset.Remove.
  split; [apply lookup_delete_eq|].
  split; [apply not_elem_of_difference; right; by apply elem_of_singleton|]. split.
  - intros n Hn. split; [by apply lookup_delete_ne|].
    rewrite elem_of_difference, not_elem_of_singleton.
    split; [by intros [? _]|by intros ?].
  - unfold removeNode.
    set (ctl1 := with_nodes ctl (stringset.Remove (nodeNameSet ctl) nodeName)
                   (delete nodeName (nodeCache ctl))).
    rewrite rebuild_nodeCache, rebuild_nodeNameSet.
    assert (with_nodes (rebuildConnectorEndpoint ctl1)
              (stringset.Remove (nodeNameSet ctl1) nodeName)
              (delete nodeName (nodeCache ctl1)) = rebuildConnectorEndpoint ctl1) as ->.
    { cbn [ctl1 nodeNameSet nodeCache with_nodes]. unfold stringset.Remove.
      rewrite delete_delete_eq.
      replace (nodeNameSet ctl ∖ {[nodeName]} ∖ {[nodeName]})
        with (nodeNameSet ctl ∖ {[nodeName]})
        by (apply set_eq; intros x; rewrite !elem_of_difference; tauto).
      rewrite (rebuild_eq ctl1). reflexivity. }
    apply rebuild_idempotent.
Qed.

(** X13: the endpoint a running controller hands out is never stale: after
    the initialization and after every reconcile request, it is the endpoint
    of the configured connector whose Subnets are the provided subnets
    followed by the PodCIDRs of the cached nodes in node-name order, and
    whose NodeSubnets are their IPs. *)
Theorem running_endpoint_current (cnf : Config) (ctl : controller) :
  running cnf ctl →
  getConnectorEndpoint ctl =
    {| types.ID := ConnectorID cnf;
       types.Name := ConnectorName cnf;
       types.PublicAddresses := ConnectorPublicAddresses cnf;
       types.Subnets := ProvidedSubnets cnf ++ (cachedNodes ctl ≫= PodCIDRs);
       types.NodeSubnets := IP <$> cachedNodes ctl;
       types.Type_ := "" |}.
Proof.
  intros Hrun. unfold getConnectorEndpoint. rewrite (running_in_sync cnf ctl Hrun).
  pose proof (reachable_invariant cnf ctl (running_reachable cnf ctl Hrun)) as Hinv.
  rewrite rebuild_endpoint.
  by rewrite (inv_id _ _ Hinv), (inv_name _ _ Hinv), (inv_addresses _ _ Hinv),
    (inv_provided _ _ Hinv).
Qed.

(** The controller initialized with [n2] and [n1], after a request for a
    node the cluster no longer has. *)
Lemma running_endpoint_current_witness :
  types.NodeSubnets
    (getConnectorEndpoint
       (onNodeRequest emptyCluster None
          (initializeConnectorEndpoint (inr [node2; node1]) (newController selfConfig)).1
          "n2").1)
  = ["10.0.0.1"].
Proof.
  rewrite (running_endpoint_current selfConfig).
  - by vm_compute.
  - apply running_request, running_initialized.
Defined.

(** X14: [initializeConnectorEndpoint] returns the error of a failed List
    and leaves the controller untouched; on a listing it returns no error
    and caches, under each name, the first listed node of that name that is
    not an edge node and has an IP and pod CIDRs, and nothing else. *)
Theorem initializeConnectorEndpoint_caches (cnf : Config) (items : list corev1.Node) :
  let ctl := (initializeConnectorEndpoint (inr items) (newController cnf)).1 in
  (initializeConnectorEndpoint (inr items) (newController cnf)).2 = None ∧
  (∀ name,
     nodeCache ctl !! name =
       entryOf (newController cnf) <$>
         head (filter (λ node, nodeutil.IsEdgeNode node = false ∧ cacheable node ∧
                               corev1.Name node = name) items)) ∧
  nodeNameSet ctl = dom (nodeCache ctl) ∧
  (∀ err ctl0, initializeConnectorEndpoint (inl err) ctl0 = (ctl0, Some err)).
Proof.
  cbn [initializeConnectorEndpoint fst snd]. split; [done|]. split; [|split; [|done]].
  - intros name. rewrite rebuild_nodeCache.
    rewrite (fold_addNode_cache cnf) by apply invariant_new.
    cbn [nodeCache newController]. by rewrite lookup_empty.
  - apply (inv_names cnf), reachable_invariant, reach_rebuild, reachable_fold_addNode,
      reach_newController.
Qed.

(** X15: [onNodeRequest] returns an error exactly when the fetch of the node
    fails with an error other than NotFound; it then returns that error and
    leaves the controller as it was. *)
Theorem onNodeRequest_error (cl : client.Cluster) (fault : option string) (ctl : controller)
    (request : string) (err : client.Error) :
  ((onNodeRequest cl fault ctl request).2 = Some err ↔
   client.GetNode cl fault request = inl err ∧ err ≠ client.NotFound) ∧
  ((onNodeRequest cl fault ctl request).2 = Some err →
   (onNodeRequest cl fault ctl request).1 = ctl).
Proof.
  unfold onNodeRequest. destruct (client.GetNode cl fault request) as [e|node].
  - destruct e; cbn [client.IsNotFound fst snd].
    + split; [|done]. split; [done|]. by intros [[= <-] ?].
    + split; [|done]. split; [intros [= <-]; by split|by intros [[= <-] _]].
    + split; [|done]. split; [intros [= <-]; by split|by intros [[= <-] _]].
  - destruct (corev1.DeletionTimestamp node); cbn [fst snd];
      (split; [|done]); split; try done; by intros [? _].
Qed.

(** A request that hits a timeout of the API server. *)
Lemma onNodeRequest_error_witness :
  onNodeRequest (clusterWith node1) (Some "timeout") oneNode "n1"
    = (oneNode, Some (client.Other "timeout")).
Proof.
  destruct (onNodeRequest_error (clusterWith node1) (Some "timeout") oneNode "n1"
              (client.Other "timeout")) as [[_ Herr] Hctl].
  assert ((onNodeRequest (clusterWith node1) (Some "timeout") oneNode "n1").2
          = Some (client.Other "timeout")) as H2 by (apply Herr; by split).
  specialize (Hctl H2).
  destruct (onNodeRequest (clusterWith node1) (Some "timeout") oneNode "n1") as [c e].
  cbn [fst snd] in *. by rewrite Hctl, H2.
Defined.

End properties_connector_more.

Section properties_publication_more.
Import connector scenarios.

(** The assertions of the initialization on a listing with an edge node, a
    node without pod CIDRs and a node listed twice. *)
Example initialize_listing :
  nodeCache (initializeConnectorEndpoint (inr [edgeNode; node3NoCIDR; node1; node1Moved])
               (newController selfConfig)).1
  = {[ "n1" := mkNode "n1" "10.0.0.1" ["10.244.1.0/24"] ]}.
Proof. by vm_compute. Qed.

(** X16: when the artifact is not found, [updateConfigMapIfNeeded] sends
    exactly one write, the creation of a config map with the namespace and
    the name of the configured key whose data is the single entry of the
    serialized NetworkConf; unless the creation fails, that config map is
    stored under the key. *)
Theorem updateConfigMapIfNeeded_creates
    (yaml_Marshal : netconf.NetworkConf → string + string) (ConnectorConfigFileName : string)
    (st : gmap string types.Endpoint) (cl : client.Cluster)
    (getFault writeFault : option string) (ctl : controller) (configData : string) :
  yaml_Marshal (networkConf st ctl) = inl configData →
  client.GetConfigMap cl getFault (configMapKey ctl) = inl client.NotFound →
  let cm := corev1.mkConfigMap (configMapKey ctl).2 (configMapKey ctl).1
              (Some {[ ConnectorConfigFileName := configData ]}) in
  ∃ cl', updateConfigMapIfNeeded yaml_Marshal ConnectorConfigFileName st cl
           getFault writeFault ctl = Some cl' ∧
         client.writes cl' = client.writes cl ++ [client.CreateCall cm] ∧
         client.nodes cl' = client.nodes cl ∧
         client.configMaps cl' =
           match writeFault with
           | None => <[configMapKey ctl := cm]> (client.configMaps cl)
           | Some _ => client.configMaps cl
           end.
Proof.
  intros Hmarshal Hget cm. unfold updateConfigMapIfNeeded. rewrite Hmarshal, Hget.
  cbn [client.IsNotFound negb]. eexists. split; [done|].
  unfold client.GetConfigMap in Hget. destruct getFault; [done|].
  destruct (client.configMaps cl !! configMapKey ctl) eqn:E; [done|].
  unfold client.Create. cbn [corev1.cmNamespace corev1.cmName].
  destruct (configMapKey ctl) as [ns name] eqn:Ekey. cbn [fst snd] in *.
  destruct writeFault; cbn [fst client.writes client.nodes client.configMaps]; [done|].
  by rewrite E.
Qed.

(** The first publication on an empty cluster. *)
Lemma updateConfigMapIfNeeded_creates_witness :
  ∃ cl', updateConfigMapIfNeeded namesOnly "tunnels.yaml" selfStore emptyCluster
           None None selfController = Some cl' ∧
         length (client.writes cl') = 1%nat ∧
         (λ cm, corev1.DataAt cm "tunnels.yaml")
           <$> (client.configMaps cl' !! ("fabedge", "connector-config"))
         = Some ("connector" +:+ golang.LF +:+ "connector" +:+ golang.LF +:+ "edge1").
Proof.
  destruct (updateConfigMapIfNeeded_creates namesOnly "tunnels.yaml" selfStore emptyCluster
              None None selfController
              ("connector" +:+ golang.LF +:+ "connector" +:+ golang.LF +:+ "edge1"))
    as (cl' & Hrun & Hwrites & _ & Hmaps).
  - by vm_compute.
  - by vm_compute.
  - exists cl'. split; [exact Hrun|]. rewrite Hwrites, Hmaps. split; by vm_compute.
Defined.

(** X17: when the artifact is found with a payload that differs from the
    serialized NetworkConf and with a data map, [updateConfigMapIfNeeded]
    sends exactly one write, an update of that config map in which the
    payload entry is replaced and every other entry, the name and the
    namespace are kept. *)
Theorem updateConfigMapIfNeeded_updates
    (yaml_Marshal : netconf.NetworkConf → string + string) (ConnectorConfigFileName : string)
    (st : gmap string types.Endpoint) (cl : client.Cluster)
    (getFault writeFault : option string) (ctl : controller)
    (cm : corev1.ConfigMap) (d : gmap string string) (configData : string) :
  yaml_Marshal (networkConf st ctl) = inl configData →
  client.GetConfigMap cl getFault (configMapKey ctl) = inr cm →
  corev1.Data cm = Some d →
  corev1.DataAt cm ConnectorConfigFileName ≠ configData →
  ∃ cl' cm',
    updateConfigMapIfNeeded yaml_Marshal ConnectorConfigFileName st cl
      getFault writeFault ctl = Some cl' ∧
    client.writes cl' = client.writes cl ++ [client.UpdateCall cm'] ∧
    corev1.cmName cm' = corev1.cmName cm ∧
    corev1.cmNamespace cm' = corev1.cmNamespace cm ∧
    corev1.DataAt cm' ConnectorConfigFileName = configData ∧
    (∀ k, k ≠ ConnectorConfigFileName → corev1.DataAt cm' k = corev1.DataAt cm k).
Proof.
  intros Hmarshal Hget Hdata Hdiff. unfold updateConfigMapIfNeeded.
  rewrite Hmarshal, Hget, Hdata.
  destruct (String.eqb_spec (corev1.DataAt cm ConnectorConfigFileName) configData); [done|].
  eexists. eexists. split; [done|]. split.
  { unfold client.Update. destruct writeFault; [done|].
    by destruct (client.configMaps cl !! _). }
  split; [done|]. split; [done|]. unfold corev1.DataAt. cbn [corev1.Data]. rewrite Hdata.
  split; [by rewrite lookup_insert_eq|]. intros k Hk. by rewrite lookup_insert_ne.
Qed.

(** The stale artifact is replaced and its other entry is kept. *)
Lemma updateConfigMapIfNeeded_updates_witness :
  ∃ cl' cm',
    updateConfigMapIfNeeded namesOnly "tunnels.yaml" selfStore staleCluster
      None None selfController = Some cl' ∧
    client.writes cl' = [client.UpdateCall cm'] ∧
    corev1.DataAt cm' "other" = "kept".
Proof.
  destruct (updateConfigMapIfNeeded_updates namesOnly "tunnels.yaml" selfStore staleCluster
              None None selfController
              (corev1.mkConfigMap "connector-config" "fabedge"
                 (Some (<["tunnels.yaml" := "old"]> {[ "other" := "kept" ]})))
              (<["tunnels.yaml" := "old"]> {[ "other" := "kept" ]})
              ("connector" +:+ golang.LF +:+ "connector" +:+ golang.LF +:+ "edge1"))
    as (cl' & cm' & Hrun & Hwrites & _ & _ & _ & Hother).
  - by vm_compute.
  - by vm_compute.
  - reflexivity.
  - by vm_compute.
  - exists cl', cm'. split; [exact Hrun|]. split; [exact Hwrites|].
    rewrite Hother by done. by vm_compute.
Defined.

(** X18: when the NetworkConf cannot be serialized, or the fetch of the
    artifact fails with an error other than NotFound, [updateConfigMapIfNeeded]
    returns without any write and leaves the cluster as it was. *)
Theorem updateConfigMapIfNeeded_failure_no_write
    (yaml_Marshal : netconf.NetworkConf → string + string) (ConnectorConfigFileName : string)
    (st : gmap string types.Endpoint) (cl : client.Cluster)
    (getFault writeFault : option string) (ctl : controller) :
  (∃ err, yaml_Marshal (networkConf st ctl) = inr err) ∨
  (∃ err, client.GetConfigMap cl getFault (configMapKey ctl) = inl err ∧
          err ≠ client.NotFound) →
  updateConfigMapIfNeeded yaml_Marshal ConnectorConfigFileName st cl
    getFault writeFault ctl = Some cl.
Proof.
  unfold updateConfigMapIfNeeded. intros [[err ->]|(err & -> & Hne)]; [done|].
  destruct (yaml_Marshal (networkConf st ctl)); [|done]. by destruct err.
Qed.

(** A fetch that times out. *)
Lemma updateConfigMapIfNeeded_failure_no_write_witness :
  updateConfigMapIfNeeded namesOnly "tunnels.yaml" selfStore staleCluster
    (Some "timeout") None selfController = Some staleCluster.
Proof.
  apply updateConfigMapIfNeeded_failure_no_write.
  right. exists (client.Other "timeout"). split; [reflexivity|discriminate].
Defined.

(** X19: when the artifact is found with no data map at all and the
    serialized NetworkConf is not empty, [updateConfigMapIfNeeded] panics on
    the write to the nil map, before any request is sent. *)
Theorem updateConfigMapIfNeeded_nil_data_panics
    (yaml_Marshal : netconf.NetworkConf → string + string) (ConnectorConfigFileName : string)
    (st : gmap string types.Endpoint) (cl : client.Cluster)
    (getFault writeFault : option string) (ctl : controller)
    (cm : corev1.ConfigMap) (configData : string) :
  yaml_Marshal (networkConf st ctl) = inl configData →
  client.GetConfigMap cl getFault (configMapKey ctl) = inr cm →
  corev1.Data cm = None →
  configData ≠ "" →
  updateConfigMapIfNeeded yaml_Marshal ConnectorConfigFileName st cl
    getFault writeFault ctl = None.
Proof.
  intros Hmarshal Hget Hdata Hne. unfold updateConfigMapIfNeeded.
  rewrite Hmarshal, Hget. unfold corev1.DataAt. rewrite Hdata.
  by destruct (String.eqb_spec "" configData).
Qed.

(** The artifact exists without data. *)
Lemma updateConfigMapIfNeeded_nil_data_panics_witness :
  updateConfigMapIfNeeded namesOnly "tunnels.yaml" selfStore noDataCluster
    None None selfController = None.
Proof.
  apply (updateConfigMapIfNeeded_nil_data_panics namesOnly "tunnels.yaml" selfStore
           noDataCluster None None selfController
           (corev1.mkConfigMap "connector-config" "fabedge" None)
           ("connector" +:+ golang.LF +:+ "connector" +:+ golang.LF +:+ "edge1")).
  - by vm_compute.
  - by vm_compute.
  - reflexivity.
  - discriminate.
Defined.

Lemma publication_stores_payload
    (yaml_Marshal : netconf.NetworkConf → string + string) (ConnectorConfigFileName : string)
    (st : gmap string types.Endpoint) (cl cl1 : client.Cluster) (ctl : controller)
    (configData : string) :
  client.wellKeyed cl →
  yaml_Marshal (networkConf st ctl) = inl configData →
  updateConfigMapIfNeeded yaml_Marshal ConnectorConfigFileName st cl None None ctl = Some cl1 →
  ∃ cm, client.configMaps cl1 !! configMapKey ctl = Some cm ∧
        corev1.DataAt cm ConnectorConfigFileName = configData.
Proof.
  intros Hkeys Hmarshal. unfold updateConfigMapIfNeeded. rewrite Hmarshal.
  unfold client.GetConfigMap.
  destruct (client.configMaps cl !! configMapKey ctl) as [cm|] eqn:E.
  - destruct (String.eqb_spec (corev1.DataAt cm ConnectorConfigFileName) configData) as [Heq|Hne].
    + intros [= <-]. by exists cm.
    + destruct (corev1.Data cm) as [d|] eqn:Ed; [|done]. intros [= <-].
      unfold client.Update. cbn [corev1.cmNamespace corev1.cmName].
      rewrite (Hkeys _ _ E), E. cbn [fst client.configMaps]. eexists.
      split; [apply lookup_insert_eq|]. unfold corev1.DataAt. cbn [corev1.Data].
      by rewrite lookup_insert_eq.
  - cbn [client.IsNotFound negb]. intros [= <-].
    unfold client.Create. cbn [corev1.cmNamespace corev1.cmName].
    destruct (configMapKey ctl) as [ns name] eqn:Ekey. cbn [fst snd].
    rewrite E. cbn [fst client.configMaps]. eexists.
    split; [apply lookup_insert_eq|]. unfold corev1.DataAt. cbn [corev1.Data].
    by rewrite lookup_singleton_eq.
Qed.

(** X20: a publication settles. When no call fails and the first
    publication returns, the artifact stored under the key holds the
    serialized NetworkConf, and a second publication from the same store and
    controller sends no write and leaves the cluster as the first one left
    it. *)
Theorem updateConfigMapIfNeeded_settles
    (yaml_Marshal : netconf.NetworkConf → string + string) (ConnectorConfigFileName : string)
    (st : gmap string types.Endpoint) (cl cl1 : client.Cluster) (ctl : controller)
    (configData : string) :
  client.wellKeyed cl →
  yaml_Marshal (networkConf st ctl) = inl configData →
  updateConfigMapIfNeeded yaml_Marshal ConnectorConfigFileName st cl None None ctl = Some cl1 →
  (∃ cm, client.configMaps cl1 !! configMapKey ctl = Some cm ∧
         corev1.DataAt cm ConnectorConfigFileName = configData) ∧
  updateConfigMapIfNeeded yaml_Marshal ConnectorConfigFileName st cl1 None None ctl = Some cl1.
Proof.
  intros Hkeys Hmarshal Hrun.
  destruct (publication_stores_payload _ _ _ _ _ _ _ Hkeys Hmarshal Hrun)
    as (cm & Hcm & Hdata).
  split; [by exists cm|]. unfold updateConfigMapIfNeeded. rewrite Hmarshal.
  unfold client.GetConfigMap. rewrite Hcm, Hdata. by rewrite String.eqb_refl.
Qed.

Lemma staleCluster_wellKeyed : client.wellKeyed staleCluster.
Proof.
  intros key cm. unfold staleCluster. cbn [client.configMaps].
  by intros [<- <-]%lookup_singleton_Some.
Qed.

(** The stale artifact is updated once; the next publication writes nothing. *)
Lemma updateConfigMapIfNeeded_settles_witness :
  ∃ cl1, updateConfigMapIfNeeded namesOnly "tunnels.yaml" selfStore staleCluster
           None None selfController = Some cl1 ∧
         length (client.writes cl1) = 1%nat ∧
         updateConfigMapIfNeeded namesOnly "tunnels.yaml" selfStore cl1
           None None selfController = Some cl1.
Proof.
  destruct (updateConfigMapIfNeeded namesOnly "tunnels.yaml" selfStore staleCluster
              None None selfController) as [cl1|] eqn:Hrun; [|by vm_compute in Hrun].
  exists cl1. split; [reflexivity|]. split.
  - revert Hrun. vm_compute. by intros [= <-].
  - apply (updateConfigMapIfNeeded_settles namesOnly "tunnels.yaml" selfStore staleCluster cl1
             selfController
             ("connector" +:+ golang.LF +:+ "connector" +:+ golang.LF +:+ "edge1")).
    + apply staleCluster_wellKeyed.
    + by vm_compute.
    + exact Hrun.
Defined.




End properties_publication_more.
